(** * Smart itinerary optimizer: the M-TSP pipeline of [optimization/solver.py]

    A shallow embedding of [solve_mtsp]: data preparation, the model handed
    to the MILP engine, the decoding of the engine's assignment into
    day-wise routes, and the totals.

    Numbers.  The program computes with floats; they are modelled by the
    rationals [Q], so sums are exact and equalities between computed totals
    are stated up to [==].  The threshold test [v > 0.5] is the function
    [gt_half].

    The engine.  OR-Tools' CBC is an external collaborator: [CreateSolver]
    is [None] when the engine cannot be constructed and otherwise a function
    from the model that was built to a status and a value for every
    variable.  Its time limit is handed over as a signed 64-bit integer of
    milliseconds: [SetTimeLimit] raises [OverflowError] outside that range.

    Counts.  [days] and the number of attractions are natural numbers, as
    every loop of the program runs over [range(days)] and [range(n)].  The
    [print] diagnostics of the program are left out. *)

From Stdlib Require Import QArith Lqa Permutation.
From Equations Require Import Equations.
From stdpp Require Import gmap strings list fin_maps pretty.

#[local] Set Warnings "-register-all,-clear-no-such-hyp".

(** ** Exceptions and results *)

Inductive exn :=
| RuntimeError (msg : string)
| IndexError
| OverflowError.

Inductive result (A : Type) :=
| Return (a : A)
| Raise (e : exn).
Arguments Return {A} a.
Arguments Raise {A} e.

#[global] Instance result_ret : MRet result := λ A a, Return a.
#[global] Instance result_bind : MBind result := λ A B f m,
  match m with
  | Return a => f a
  | Raise e => Raise e
  end.

(** [[f(a) for a in l]] where [f] may raise: the first exception wins. *)
Fixpoint traverse {A B : Type} (f : A → result B) (l : list A) : result (list B) :=
  match l with
  | [] => Return []
  | a :: l' => b ← f a; bs ← traverse f l'; Return (b :: bs)
  end.

(** ** Data model *)

(** One row of the attractions table. *)
Record Attraction := {
  name : string;
  category : string;
  avg_time_hr : Q;
  entry_fee : Q;
  fun_score : Q
}.

(** The attractions [DataFrame]: its rows, and whether it has a
    ["category"] column (the column is optional). *)
Record DataFrame := {
  rows : list Attraction;
  has_category : bool
}.

(** A two-dimensional numeric array, as [distances.to_numpy(dtype=float)]
    yields it: a shape and the cells. *)
Record Matrix := {
  shape_rows : nat;
  shape_cols : nat;
  cell : nat → nat → Q
}.

(** [M[i, j]]: numpy raises [IndexError] outside the shape. *)
Definition at_ (M : Matrix) (i j : nat) : result Q :=
  if (i <? shape_rows M) && (j <? shape_cols M)
  then Return (cell M i j)
  else Raise IndexError.

(** [M / v], cell by cell. *)
Definition matrix_div (M : Matrix) (v : Q) : Matrix :=
  {| shape_rows := shape_rows M;
     shape_cols := shape_cols M;
     cell := λ i j, (cell M i j / v)%Q |}.

#[global] Instance Q_inhabited : Inhabited Q := populate 0%Q.

(** The arguments of [solve_mtsp]. *)
Record Request := {
  attractions : DataFrame;
  distances : Matrix;
  days : nat;
  budget_day : Q;
  time_day : Q;
  weights : option (gmap string Q);
  avg_speed_kmph : Q;
  travel_cost_per_km : Q;
  alpha : option Q;
  time_limit_seconds : Q
}.

(** ** The MILP model *)

(** Decision variables: [x[i,j,d]], [y[i,d]], [u[i,d]]. *)
Inductive Var :=
| X (i j d : nat)
| Y (i d : nat)
| U (i d : nat).

Inductive VarKind :=
| BoolVar
| IntVar (lo hi : Q).

(** Linear expressions as the OR-Tools wrapper builds them. *)
Inductive LinExpr :=
| EVar (v : Var)
| EConst (q : Q)
| EScale (q : Q) (e : LinExpr)
| EAdd (e1 e2 : LinExpr)
| ESub (e1 e2 : LinExpr)
| ESum (es : list LinExpr).

Inductive Constraint :=
| CLe (l r : LinExpr)
| CGe (l r : LinExpr).

Record Model := {
  variables : list (Var * VarKind);
  objective : list (Var * Q);      (* coefficients; the sense is maximize *)
  constraints : list Constraint;
  time_limit_ms : Z
}.

Inductive Status :=
| OPTIMAL
| FEASIBLE
| INFEASIBLE
| UNBOUNDED
| ABNORMAL
| MODEL_INVALID
| NOT_SOLVED.

(** A value for every variable: [v.solution_value()]. *)
Definition Assignment := Var → Q.

(** The engine: [solver.Solve()] and the values it leaves behind. *)
Definition Engine := Model → Status * Assignment.

(** Python's [sum]: starts at [0] and adds from the left. *)
Definition py_sum (l : list Q) : Q := fold_left Qplus l 0%Q.

(** Python's [int] on a number: truncation towards zero. *)
Definition py_int (q : Q) : Z := Z.quot (Qnum q) (Zpos (Qden q)).

(** Value of an expression under an assignment. *)
Fixpoint eval (σ : Assignment) (e : LinExpr) : Q :=
  match e with
  | EVar v => σ v
  | EConst q => q
  | EScale q e => (q * eval σ e)%Q
  | EAdd e1 e2 => (eval σ e1 + eval σ e2)%Q
  | ESub e1 e2 => (eval σ e1 - eval σ e2)%Q
  | ESum es => py_sum (map (eval σ) es)
  end.

Definition holds (σ : Assignment) (c : Constraint) : Prop :=
  match c with
  | CLe l r => (eval σ l <= eval σ r)%Q
  | CGe l r => (eval σ r <= eval σ l)%Q
  end.

Definition in_domain (σ : Assignment) (vk : Var * VarKind) : Prop :=
  match vk.2 with
  | BoolVar => (σ vk.1 == 0 ∨ σ vk.1 == 1)%Q
  | IntVar lo hi => (∃ z : Z, σ vk.1 == inject_Z z)%Q ∧ (lo <= σ vk.1 <= hi)%Q
  end.

(** The assignment satisfies the model: every variable is in its domain and
    every constraint holds. *)
Definition feasible (m : Model) (σ : Assignment) : Prop :=
  Forall (in_domain σ) (variables m) ∧ Forall (holds σ) (constraints m).

(** ** Data preparation (lines 39-64) *)

Definition names_of (rq : Request) : list string :=
  name <$> rows (attractions rq).

Definition falsy (v : Q) : bool := Qeq_bool v 0.

Definition travel_time_of (rq : Request) : Matrix :=
  if falsy (avg_speed_kmph rq) then distances rq
  else matrix_div (distances rq) (avg_speed_kmph rq).

Definition visit_time_of (rq : Request) : list Q :=
  avg_time_hr <$> rows (attractions rq).

Definition fee_of (rq : Request) : list Q :=
  entry_fee <$> rows (attractions rq).

(** The weighted fun score; [weights.get(cat, 1.0)] is [default 1 (w !! cat)]. *)
Definition fun_of (rq : Request) : list Q :=
  match weights rq with
  | Some w =>
      if has_category (attractions rq)
      then (λ a, fun_score a * default 1 (w !! category a))%Q <$> rows (attractions rq)
      else fun_score <$> rows (attractions rq)
  | None => fun_score <$> rows (attractions rq)
  end.

(** ** Building the model (lines 70-144) *)

(** The range of a signed 64-bit integer. *)
Definition fits_int64 (z : Z) : Prop := (- 2 ^ 63 ≤ z ∧ z < 2 ^ 63)%Z.

(** [solver.SetTimeLimit(ms)]: the wrapper takes a 64-bit integer and raises
    [OverflowError] for a Python integer outside that range. *)
Definition SetTimeLimit (ms : Z) : result Z :=
  if (- 2 ^ 63 <=? ms)%Z && (ms <? 2 ^ 63)%Z
  then Return ms
  else Raise OverflowError.

Definition Qnat (k : nat) : Q := inject_Z (Z.of_nat k).

(** [[j for j in range(n) if j != i]] *)
Definition others (n i : nat) : list nat := filter (λ j, j ≠ i) (seq 0 n).

(** [for i in range(n): for j in range(n): if i == j: continue] *)
Definition arc_pairs (n : nat) : list (nat * nat) :=
  i ← seq 0 n; j ← seq 0 n; if decide (i = j) then [] else [(i, j)].

(** The keys of [x]: the pairs above for every [d in range(days)]. *)
Definition x_keys (n ndays : nat) : list (nat * nat * nat) :=
  d ← seq 0 ndays; (λ '(i, j), (i, j, d)) <$> arc_pairs n.

(** The keys of [y] and of [u]. *)
Definition y_keys (n ndays : nat) : list (nat * nat) :=
  d ← seq 0 ndays; i ← seq 0 n; [(i, d)].

Definition declare_variables (n ndays : nat) : list (Var * VarKind) :=
  ((λ '(i, j, d), (X i j d, BoolVar)) <$> x_keys n ndays)
  ++ ((λ '(i, d), (Y i d, BoolVar)) <$> y_keys n ndays)
  ++ ((λ '(i, d), (U i d, IntVar 0 (Qnat n))) <$> y_keys n ndays).

(** Objective: [fun[i]] on every [y[i,d]] and, when [alpha] is given and
    nonzero, [-alpha * dist[i,j]] on every [x[i,j,d]]. *)
Definition build_objective (n ndays : nat) (fun_ : list Q) (dist : Matrix)
    (alpha : option Q) : result (list (Var * Q)) :=
  let fun_terms := (λ '(i, d), (Y i d, fun_ !!! i)) <$> y_keys n ndays in
  match alpha with
  | Some a =>
      if Qeq_bool a 0 then Return fun_terms
      else
        arc_terms ← traverse (λ '(i, j, d),
                      dij ← at_ dist i j; Return (X i j d, (- a * dij)%Q))
                      (x_keys n ndays);
        Return (fun_terms ++ arc_terms)
  | None => Return fun_terms
  end.

(** (1) Flow connectivity: a visited node has one or two incident arcs, an
    unvisited one has none. *)
Definition flow_constraints (n ndays : nat) : list Constraint :=
  d ← seq 0 ndays; i ← seq 0 n;
  let in_sum := ESum ((λ j, EVar (X j i d)) <$> others n i) in
  let out_sum := ESum ((λ j, EVar (X i j d)) <$> others n i) in
  [ CGe (EAdd in_sum out_sum) (EVar (Y i d));
    CLe (EAdd in_sum out_sum) (EScale 2 (EVar (Y i d))) ].

(** (2) Each attraction visited at most once across days. *)
Definition once_constraints (n ndays : nat) : list Constraint :=
  i ← seq 0 n;
  [ CLe (ESum ((λ d, EVar (Y i d)) <$> seq 0 ndays)) (EConst 1) ].

(** (3) Daily time: visit time plus travel time. *)
Definition time_constraints (n ndays : nat) (visit_time : list Q)
    (travel_time : Matrix) (time_day : Q) : result (list Constraint) :=
  traverse (λ d,
    let visit_expr := ESum ((λ i, EScale (visit_time !!! i) (EVar (Y i d))) <$> seq 0 n) in
    travel_terms ← traverse (λ '(i, j),
                      tij ← at_ travel_time i j; Return (EScale tij (EVar (X i j d))))
                      (arc_pairs n);
    Return (CLe (EAdd visit_expr (ESum travel_terms)) (EConst time_day)))
  (seq 0 ndays).

(** (4) Hard daily budget on entry fees. *)
Definition budget_constraints (n ndays : nat) (fee : list Q) (budget_day : Q)
    : list Constraint :=
  d ← seq 0 ndays;
  [ CLe (ESum ((λ i, EScale (fee !!! i) (EVar (Y i d))) <$> seq 0 n)) (EConst budget_day) ].

(** (5) MTZ subtour elimination, per day. *)
Definition mtz_constraints (n ndays : nat) : list Constraint :=
  (λ '(i, j, d),
     CLe (EAdd (ESub (EVar (U i d)) (EVar (U j d))) (EScale (Qnat n) (EVar (X i j d))))
         (EConst (Qnat n - 1)%Q)) <$> x_keys n ndays.

(** (6) Bounds on [u]. *)
Definition order_constraints (n ndays : nat) : list Constraint :=
  d ← seq 0 ndays; i ← seq 0 n;
  [ CGe (EVar (U i d)) (EVar (Y i d));
    CLe (EVar (U i d)) (EScale (Qnat n) (EVar (Y i d))) ].

Definition build_model (rq : Request) : result Model :=
  let n := length (names_of rq) in
  let ndays := days rq in
  limit ← SetTimeLimit (py_int (time_limit_seconds rq * 1000));
  obj ← build_objective n ndays (fun_of rq) (distances rq) (alpha rq);
  timec ← time_constraints n ndays (visit_time_of rq) (travel_time_of rq) (time_day rq);
  Return {|
    variables := declare_variables n ndays;
    objective := obj;
    constraints :=
      flow_constraints n ndays ++ once_constraints n ndays ++ timec
      ++ budget_constraints n ndays (fee_of rq) (budget_day rq)
      ++ mtz_constraints n ndays ++ order_constraints n ndays;
    time_limit_ms := limit
  |}.

(** ** Decoding the assignment (lines 155-194) *)

(** [v > 0.5] *)
Definition gt_half (v : Q) : bool := negb (Qle_bool v (1 # 2)).

(** The materialized assignment. *)
Definition visit (σ : Assignment) (i d : nat) : bool := gt_half (σ (Y i d)).
Definition arc (σ : Assignment) (i j d : nat) : bool := gt_half (σ (X i j d)).

(** [adj.setdefault(i, []).append(j)] *)
Definition setdefault_append (adj : gmap nat (list nat)) (i j : nat)
    : gmap nat (list nat) :=
  <[i := default [] (adj !! i) ++ [j]]> adj.

(** [adj_per_day[d]] *)
Definition adj_of_day (σ : Assignment) (n d : nat) : gmap nat (list nat) :=
  fold_left (λ adj i,
    fold_left (λ adj j,
      if decide (i = j) then adj
      else if arc σ i j d then setdefault_append adj i j else adj)
      (seq 0 n) adj)
    (seq 0 n) ∅.

(** [succ]: the first recorded successor of every key of [adj]. *)
Definition succ_of (adj : gmap nat (list nat)) : gmap nat nat := omap head adj.

(** [assigned = [i for i in range(n) if y[i,d].solution_value() > 0.5]] *)
Definition assigned_of (σ : Assignment) (n d : nat) : list nat :=
  filter (λ i, visit σ i d) (seq 0 n).

(** How many indices of [range(n)] are not yet in [visited]: the measure
    of the chain walk. *)
Definition unvisited (n : nat) (visited : gset nat) : nat :=
  length (filter (λ i, i ∉ visited) (seq 0 n)).

Section decoder.
Context {A : Type}.
(** What is appended for a node; [solve_mtsp] appends [names[cur]]. *)
Context (label : nat → A).
Context (n : nat).

(** The [while] loop of one chain: from [cur], with the [visited] set and
    the [chain] built so far. *)
Equations? walk (succ : gmap nat nat) (visited : gset nat) (cur : nat)
    (chain : list A) : gset nat * list A by wf (unvisited n visited) lt :=
walk succ visited cur chain with decide ((cur ∉ visited) ∧ (cur < n)) => {
  | right _ := (visited, chain);
  | left Hc with succ !! cur => {
      | Some nxt := walk succ ({[cur]} ∪ visited) nxt (chain ++ [label cur]);
      | None := ({[cur]} ∪ visited, chain ++ [label cur]) } }.
Proof.
  destruct Hc as [Hnot Hlt]. unfold unvisited.
  assert (Hle : ∀ l : list nat,
    length (filter (λ i, i ∉ {[cur]} ∪ visited) l)
    ≤ length (filter (λ i, i ∉ visited) l)).
  { induction l as [|b l IH]; [done|].
    rewrite !filter_cons.
    destruct (decide (b ∉ {[cur]} ∪ visited)) as [H1|H1];
      destruct (decide (b ∉ visited)) as [H2|H2]; simpl; try lia.
    exfalso. apply H2. intros Hb. apply H1. set_solver. }
  assert (Hin : cur ∈ seq 0 n) by (apply elem_of_seq; lia).
  induction (seq 0 n) as [|a l IH]; [by apply elem_of_nil in Hin|].
  rewrite !filter_cons.
  destruct (decide (a = cur)) as [->|Hne].
  - destruct (decide (cur ∉ {[cur]} ∪ visited)) as [H1|_].
    { exfalso. apply H1, elem_of_union_l, elem_of_singleton_2. reflexivity. }
    destruct (decide (cur ∉ visited)) as [_|H2]; [|done].
    simpl. apply Nat.lt_succ_r, Hle.
  - apply elem_of_cons in Hin as [?|Hin']; [congruence|].
    specialize (IH Hin').
    destruct (decide (a ∉ {[cur]} ∪ visited)) as [H1|H1];
      destruct (decide (a ∉ visited)) as [H2|H2]; simpl; try lia.
    exfalso. apply H2. intros Ha. apply H1. set_solver.
Qed.

(** One turn of [for start in assigned]. *)
Definition route_step (succ : gmap nat nat) (st : gset nat * list (list A))
    (start : nat) : gset nat * list (list A) :=
  if decide (start ∈ st.1) then st
  else
    let r := walk succ st.1 start [] in
    (r.1, st.2 ++ [r.2]).

(** [day_routes] after the loop over [assigned]. *)
Definition day_routes (σ : Assignment) (d : nat) : list (list A) :=
  let succ := succ_of (adj_of_day σ n d) in
  (fold_left (route_step succ) (assigned_of σ n d) (∅, [])).2.

(** [flat]: the chains of the day, one after the other. *)
Definition decode_day (σ : Assignment) (d : nat) : list A :=
  concat (day_routes σ d).
End decoder.

(** The indices walked on a day: the decoder run with the identity label. *)
Definition day_indices (n : nat) (σ : Assignment) (d : nat) : list nat :=
  decode_day id n σ d.

(** ** Totals (lines 196-220) *)

Definition total_entry_cost_of (σ : Assignment) (n ndays : nat) (fee : list Q) : Q :=
  py_sum (d ← seq 0 ndays; i ← seq 0 n;
          if visit σ i d then [fee !!! i] else []).

Definition total_fun_of (σ : Assignment) (n ndays : nat) (fun_ : list Q) : Q :=
  py_sum (d ← seq 0 ndays; i ← seq 0 n;
          if visit σ i d then [fun_ !!! i] else []).

(** The [(i, j)] the generator of [total_dist] reaches: [for d .. for i ..
    for j .. if i != j and x[i,j,d].solution_value() > 0.5]. *)
Definition used_arcs (σ : Assignment) (n ndays : nat) : list (nat * nat) :=
  d ← seq 0 ndays; i ← seq 0 n; j ← seq 0 n;
  if bool_decide (i ≠ j) && arc σ i j d then [(i, j)] else [].

Definition total_dist_of (σ : Assignment) (n ndays : nat) (dist : Matrix) : result Q :=
  ds ← traverse (λ '(i, j), at_ dist i j) (used_arcs σ n ndays);
  Return (py_sum ds).

(** ** The pipeline *)

Definition status_ok (s : Status) : bool :=
  match s with
  | OPTIMAL | FEASIBLE => true
  | _ => false
  end.

Definition solve_mtsp (CreateSolver : option Engine) (rq : Request)
    : result (list (list string) * Q * Q * Q) :=
  let names := names_of rq in
  let n := length names in
  let dist := distances rq in
  let fee := fee_of rq in
  let fun_ := fun_of rq in
  match CreateSolver with
  | None => Raise (RuntimeError "Cannot create OR-Tools solver.")
  | Some solver =>
      model ← build_model rq;
      let '(status, σ) := solver model in
      if negb (status_ok status)
      then Return (replicate (days rq) [], 0, 0, 0)%Q
      else
        let itinerary := decode_day (λ cur, names !!! cur) n σ <$> seq 0 (days rq) in
        let total_entry_cost := total_entry_cost_of σ n (days rq) fee in
        let total_fun := total_fun_of σ n (days rq) fun_ in
        total_dist ← total_dist_of σ n (days rq) dist;
        let total_travel_cost := (total_dist * travel_cost_per_km rq)%Q in
        let total_cost := (total_entry_cost + total_travel_cost)%Q in
        Return (itinerary, total_cost, total_fun, total_dist)
  end.

(** ** The decoder in the words of the specification

    The specification describes the decoder as a walk along successors:
    from a start that is not yet visited, follow the successor, consume each
    node, and stop at a node without successor or at a visited node. *)

(** One chain: [spec_chain succ v cur chain v'] walks from [cur] with the
    visited set [v], consumes [chain] and ends with the visited set [v']. *)
Inductive spec_chain (succ : nat → option nat)
    : gset nat → nat → list nat → gset nat → Prop :=
| chain_visited v cur :
    cur ∈ v → spec_chain succ v cur [] v
| chain_end v cur :
    cur ∉ v → succ cur = None → spec_chain succ v cur [cur] ({[cur]} ∪ v)
| chain_step v cur nxt chain v' :
    cur ∉ v → succ cur = Some nxt →
    spec_chain succ ({[cur]} ∪ v) nxt chain v' →
    spec_chain succ v cur (cur :: chain) v'.

(** The chains of a day: every start that was not consumed by an earlier
    chain opens a new one, in the order of the starts. *)
Inductive spec_chains (succ : nat → option nat)
    : gset nat → list nat → list (list nat) → gset nat → Prop :=
| chains_done v :
    spec_chains succ v [] [] v
| chains_skip v s starts chains v' :
    s ∈ v → spec_chains succ v starts chains v' →
    spec_chains succ v (s :: starts) chains v'
| chains_walk v s starts chain v1 chains v' :
    s ∉ v → spec_chain succ v s chain v1 →
    spec_chains succ v1 starts chains v' →
    spec_chains succ v (s :: starts) (chain :: chains) v'.

(** ** Totals in the words of the specification *)

(** [big_sum k f] is the sum of [f i] for [i < k]. *)
Fixpoint big_sum (k : nat) (f : nat → Q) : Q :=
  match k with
  | O => 0%Q
  | S k' => (big_sum k' f + f k')%Q
  end.

(** The sum of [fee[i]] over the [(i, d)] with [visit[i,d]]. *)
Definition spec_total_entry_cost (σ : Assignment) (n ndays : nat) (fee : nat → Q) : Q :=
  big_sum ndays (λ d, big_sum n (λ i, if visit σ i d then fee i else 0%Q)).

(** The sum of [weightedFun[i]] over the [(i, d)] with [visit[i,d]]. *)
Definition spec_total_fun (σ : Assignment) (n ndays : nat) (wfun : nat → Q) : Q :=
  big_sum ndays (λ d, big_sum n (λ i, if visit σ i d then wfun i else 0%Q)).

(** The sum of [dist[i][j]] over the [(i, j, d)] with [i ≠ j] and
    [arc[i,j,d]]. *)
Definition spec_total_distance (σ : Assignment) (n ndays : nat) (dist : nat → nat → Q) : Q :=
  big_sum ndays (λ d, big_sum n (λ i, big_sum n (λ j,
    if bool_decide (i ≠ j) && arc σ i j d then dist i j else 0%Q))).

(** The sum of [dist[a][b]] over the consecutive pairs [(a, b)] of a
    sequence of indices. *)
Fixpoint route_length (dist : nat → nat → Q) (route : list nat) : Q :=
  match route with
  | a :: (b :: _) as rest => (dist a b + route_length dist rest)%Q
  | _ => 0%Q
  end.

(** ** Properties of the assignment *)

(** No attraction is assigned to two days. *)
Definition once_across_days (σ : Assignment) (n ndays : nat) : Prop :=
  ∀ i d1 d2, i < n → d1 < ndays → d2 < ndays →
    visit σ i d1 → visit σ i d2 → d1 = d2.

(** On day [d], every used arc joins two attractions assigned to [d]. *)
Definition arcs_within_assigned (σ : Assignment) (n d : nat) : Prop :=
  ∀ i j, i < n → j < n → i ≠ j → arc σ i j d → visit σ i d ∧ visit σ j d.

(** ** Auxiliary definitions *)

(** The indices [j ≠ i] with a used arc from [i] on day [d], in the order of
    [range(n)]. *)
Definition outs (σ : Assignment) (n d i : nat) : list nat :=
  filter (λ j, j ≠ i ∧ arc σ i j d) (seq 0 n).

Definition adj_row (σ : Assignment) (d i : nat) (js : list nat)
    (adj : gmap nat (list nat)) : gmap nat (list nat) :=
  fold_left (λ adj j,
    if decide (i = j) then adj
    else if arc σ i j d then setdefault_append adj i j else adj) js adj.

(** The distance matrix covers every pair of distinct attraction indices. *)
Definition covers (M : Matrix) (n : nat) : Prop :=
  ∀ i j, i < n → j < n → i ≠ j → i < shape_rows M ∧ j < shape_cols M.

(** The travel-time terms of one day, when every lookup is in bounds. *)
Definition travel_terms (T : Matrix) (n d : nat) : list LinExpr :=
  (λ '(i, j), EScale (cell T i j) (EVar (X i j d))) <$> arc_pairs n.

Definition time_constraint (rq : Request) (d : nat) : Constraint :=
  let n := length (names_of rq) in
  CLe (EAdd (ESum ((λ i, EScale (visit_time_of rq !!! i) (EVar (Y i d))) <$> seq 0 n))
            (ESum (travel_terms (travel_time_of rq) n d)))
      (EConst (time_day rq)).

(** The constraints of the model once every lookup is in bounds. *)
Definition model_constraints (rq : Request) : list Constraint :=
  let n := length (names_of rq) in
  flow_constraints n (days rq) ++ once_constraints n (days rq)
  ++ (time_constraint rq <$> seq 0 (days rq))
  ++ budget_constraints n (days rq) (fee_of rq) (budget_day rq)
  ++ mtz_constraints n (days rq) ++ order_constraints n (days rq).

(** The preconditions the specification asks for. *)
Definition precondition (rq : Request) : Prop :=
  length (names_of rq) = shape_rows (distances rq)
  ∧ length (names_of rq) = shape_cols (distances rq)
  ∧ 1 ≤ days rq
  ∧ (0 < budget_day rq)%Q
  ∧ (0 < time_day rq)%Q
  ∧ (0 < avg_speed_kmph rq)%Q.

(** * A worked request

    Four attractions, two days.  The engine answers with the routes
    A → B and C → D on the first day and nothing on the second. *)

Module Demo.

Definition rows4 : list Attraction :=
  [ {| name := "A"; category := "food";    avg_time_hr := 1; entry_fee := 10; fun_score := 5 |};
    {| name := "B"; category := "culture"; avg_time_hr := 1; entry_fee := 20; fun_score := 6 |};
    {| name := "C"; category := "history"; avg_time_hr := 1; entry_fee := 30; fun_score := 7 |};
    {| name := "D"; category := "park";    avg_time_hr := 1; entry_fee := 40; fun_score := 8 |} ].

(** [dist[i][j] = 10 * |i - j|] *)
Definition dist4 : Matrix :=
  {| shape_rows := 4; shape_cols := 4;
     cell := λ i j, Qnat (10 * ((i - j) + (j - i))) |}.

Definition rq : Request :=
  {| attractions := {| rows := rows4; has_category := true |};
     distances := dist4;
     days := 2;
     budget_day := 100;
     time_day := 8;
     weights := Some {[ "food" := (1 # 2)%Q ]};
     avg_speed_kmph := 20;
     travel_cost_per_km := 20;
     alpha := Some (1 # 100)%Q;
     time_limit_seconds := 60 |}.

(** Two route fragments on day 0: 0 → 1 and 2 → 3. *)
Definition σ_two_chains : Assignment := λ v,
  match v with
  | X 0 1 0 | X 2 3 0 => 1
  | Y _ 0 => 1
  | U 0 0 | U 2 0 => 1
  | U 1 0 | U 3 0 => 2
  | _ => 0
  end%Q.

Definition engine_two_chains : Engine := λ _, (OPTIMAL, σ_two_chains).

(** A closed loop 0 → 1 → 0, which a feasible assignment never has. *)
Definition σ_cycle : Assignment := λ v,
  match v with
  | X 0 1 0 | X 1 0 0 => 1
  | Y 0 0 | Y 1 0 => 1
  | _ => 0
  end%Q.

Definition engine_infeasible : Engine := λ _, (INFEASIBLE, λ _, 0%Q).

(** The same request with no budget at all. *)
Definition rq_no_budget : Request :=
  {| attractions := attractions rq; distances := distances rq; days := days rq;
     budget_day := 0;
     time_day := time_day rq; weights := weights rq;
     avg_speed_kmph := avg_speed_kmph rq;
     travel_cost_per_km := travel_cost_per_km rq; alpha := alpha rq;
     time_limit_seconds := time_limit_seconds rq |}.

(** The same request with a time limit of [10^16] seconds, whose
    milliseconds exceed [2^63 - 1]. *)
Definition rq_long_limit : Request :=
  {| attractions := attractions rq; distances := distances rq; days := days rq;
     budget_day := budget_day rq;
     time_day := time_day rq; weights := weights rq;
     avg_speed_kmph := avg_speed_kmph rq;
     travel_cost_per_km := travel_cost_per_km rq; alpha := alpha rq;
     time_limit_seconds := 10000000000000000 |}.

(** The same request with a zero average speed. *)
Definition rq_no_speed : Request :=
  {| attractions := attractions rq; distances := distances rq; days := days rq;
     budget_day := budget_day rq;
     time_day := time_day rq; weights := weights rq;
     avg_speed_kmph := 0;
     travel_cost_per_km := travel_cost_per_km rq; alpha := alpha rq;
     time_limit_seconds := time_limit_seconds rq |}.

(** The two chains again, with raw values [3/4] where [σ_two_chains]
    has [1]. *)
Definition σ_fractional : Assignment := λ v,
  (σ_two_chains v * (3 # 4))%Q.

Definition empty_model : Model :=
  {| variables := []; objective := []; constraints := []; time_limit_ms := 0 |}.

(** The model built for [rq]. *)
Definition model : Model :=
  match build_model rq with
  | Return m => m
  | Raise _ => empty_model
  end.

End Demo.

(** ** Further definitions: the model as a whole *)

(** Value of the objective under an assignment: every variable has one
    coefficient, set once. *)
Definition objective_value (σ : Assignment) (obj : list (Var * Q)) : Q :=
  py_sum ((λ '(v, c), (c * σ v)%Q) <$> obj).

(** The variables an expression mentions. *)
Fixpoint vars_of (e : LinExpr) : list Var :=
  match e with
  | EVar v => [v]
  | EConst _ => []
  | EScale _ e => vars_of e
  | EAdd e1 e2 => vars_of e1 ++ vars_of e2
  | ESub e1 e2 => vars_of e1 ++ vars_of e2
  | ESum es => concat (map vars_of es)
  end.

Definition constraint_vars (c : Constraint) : list Var :=
  match c with
  | CLe l r => vars_of l ++ vars_of r
  | CGe l r => vars_of l ++ vars_of r
  end.

(** The keys the program creates a variable for. *)
Definition key_in_range (n ndays : nat) (v : Var) : Prop :=
  match v with
  | X i j d => i < n ∧ j < n ∧ i ≠ j ∧ d < ndays
  | Y i d => i < n ∧ d < ndays
  | U i d => i < n ∧ d < ndays
  end.

(** The travel time (or distance) along the used arcs of day [d]. *)
Definition day_arc_sum (σ : Assignment) (n d : nat) (w : nat → nat → Q) : Q :=
  big_sum n (λ i, big_sum n (λ j,
    if bool_decide (i ≠ j) && arc σ i j d then w i j else 0%Q)).

(** A sequence of indices in which every step is a used arc of day [d]. *)
Definition arc_path (σ : Assignment) (n d : nat) (p : list nat) : Prop :=
  ∀ k a b, p !! k = Some a → p !! S k = Some b →
    a < n ∧ b < n ∧ a ≠ b ∧ arc σ a b d.

(** The objective terms, once every lookup is in bounds. *)
Definition fun_terms (rq : Request) : list (Var * Q) :=
  (λ '(i, d), (Y i d, fun_of rq !!! i))
    <$> y_keys (length (names_of rq)) (days rq).

Definition arc_terms (rq : Request) (a : Q) : list (Var * Q) :=
  (λ '(i, j, d), (X i j d, (- a * cell (distances rq) i j)%Q))
    <$> x_keys (length (names_of rq)) (days rq).

Definition model_objective (rq : Request) : list (Var * Q) :=
  fun_terms rq ++
  match alpha rq with
  | Some a => if Qeq_bool a 0 then [] else arc_terms rq a
  | None => []
  end.

(** ** The caller: [app.py]

    The parts of the Streamlit script that compute: the call of
    [solve_mtsp] (lines 77-93) and the drawing of the returned routes
    (lines 118-149).  Widgets, session state and the rendering itself are
    left out. *)

Module App.

(** A row of the attractions table as the script reads it: the columns
    [solve_mtsp] uses and the coordinates. *)
Record Place := {
  place : Attraction;
  latitude : Q;
  longitude : Q
}.

(** The table handed to [solve_mtsp]; it has a ["category"] column. *)
Definition table (places : list Place) : DataFrame :=
  {| rows := place <$> places; has_category := true |}.

(** [weights = {"food": food, "adventure": adventure, "culture": culture,
    "history": history}] *)
Definition sidebar_weights (food adventure culture history : Q) : gmap string Q :=
  <["food" := food]> (<["adventure" := adventure]>
    (<["culture" := culture]> (<["history" := history]> ∅))).

(** The call of lines 80-89; [travel_cost_per_km] and [alpha] keep their
    defaults. *)
Definition run_optimizer (CreateSolver : option Engine) (places : list Place)
    (distances : Matrix) (days : nat) (budget_day time_day : Q)
    (weights : gmap string Q) : result (list (list string) * Q * Q * Q) :=
  solve_mtsp CreateSolver
    {| attractions := table places;
       distances := distances;
       days := days;
       budget_day := budget_day;
       time_day := time_day;
       weights := Some weights;
       avg_speed_kmph := 20;
       travel_cost_per_km := 20;
       alpha := Some (1 # 100)%Q;
       time_limit_seconds := 60 |}.

(** What is added to the map. *)
Inductive Shape :=
| Marker (location : Q * Q) (popup : string) (color : string)
| PolyLine (src dst : Q * Q) (color : string).

Definition colors : list string :=
  ["red"; "blue"; "green"; "purple"; "orange"; "cadetblue"; "darkred"].

(** [attractions[attractions["name"] == nm].iloc[0]]: the first row with
    that name; [iloc[0]] raises [IndexError] when there is none. *)
Definition first_named (places : list Place) (nm : string) : result Place :=
  match filter (λ p, name (place p) = nm) places with
  | p :: _ => Return p
  | [] => Raise IndexError
  end.

(** One turn of [for i in range(len(route))]: the point, and the marker
    with, except at the last stop, the line to the next stop. *)
Definition draw_stop (places : list Place) (day_idx : nat) (color : string)
    (route : list string) (i : nat) : result ((Q * Q) * list Shape) :=
  a ← first_named places (route !!! i);
  let here := (latitude a, longitude a) in
  let marker :=
    Marker here ("Day " +:+ pretty (day_idx + 1) +:+ ": " +:+ name (place a)) color in
  if decide (i < length route - 1) then
    b ← first_named places (route !!! (i + 1));
    Return (here, [marker; PolyLine here (latitude b, longitude b) color])
  else Return (here, [marker]).

(** One turn of [for day_idx, route in enumerate(itinerary)], on the
    points and the shapes collected so far. *)
Definition draw_day (places : list Place) (st : list (Q * Q) * list Shape)
    (day_idx : nat) (route : list string) : result (list (Q * Q) * list Shape) :=
  let color := colors !!! (day_idx mod length colors) in
  match route with
  | [] => Return st
  | _ =>
      stops ← traverse (draw_stop places day_idx color route) (seq 0 (length route));
      Return (st.1 ++ stops.*1, st.2 ++ concat (stops.*2))
  end.

Fixpoint draw_days (places : list Place) (st : list (Q * Q) * list Shape)
    (day_idx : nat) (itinerary : list (list string))
    : result (list (Q * Q) * list Shape) :=
  match itinerary with
  | [] => Return st
  | route :: rest =>
      st' ← draw_day places st day_idx route;
      draw_days places st' (S day_idx) rest
  end.

(** The shapes of the route map, and the points it is fitted to when there
    are any. *)
Definition route_map (places : list Place) (itinerary : list (list string))
    : result (list Shape * option (list (Q * Q))) :=
  st ← draw_days places ([], []) 0 itinerary;
  Return (st.2, match st.1 with [] => None | pts => Some pts end).

Definition is_marker (s : Shape) : bool :=
  match s with Marker _ _ _ => true | PolyLine _ _ _ => false end.

Definition markers (shapes : list Shape) : nat :=
  length (filter (λ s, is_marker s) shapes).

Definition polylines (shapes : list Shape) : nat :=
  length (filter (λ s, negb (is_marker s)) shapes).

(** The number of steps between consecutive stops of the days. *)
Definition steps (itinerary : list (list string)) : nat :=
  sum_list ((λ route, length route - 1) <$> itinerary).

End App.

(** What one stop adds. *)
Definition stop_ok (len : nat) (i : nat) (stop : (Q * Q) * list App.Shape) : Prop :=
  App.markers stop.2 = 1
  ∧ App.polylines stop.2 = (if decide (i < len - 1) then 1 else 0).

(** The worked request as the script would hold it, with coordinates. *)
Module AppDemo.

Definition places : list App.Place :=
  [ {| App.place := {| name := "A"; category := "food"; avg_time_hr := 1;
                       entry_fee := 10; fun_score := 5 |};
       App.latitude := 28; App.longitude := 77 |};
    {| App.place := {| name := "B"; category := "culture"; avg_time_hr := 1;
                       entry_fee := 20; fun_score := 6 |};
       App.latitude := 29; App.longitude := 77 |};
    {| App.place := {| name := "C"; category := "history"; avg_time_hr := 1;
                       entry_fee := 30; fun_score := 7 |};
       App.latitude := 28; App.longitude := 78 |};
    {| App.place := {| name := "D"; category := "park"; avg_time_hr := 1;
                       entry_fee := 40; fun_score := 8 |};
       App.latitude := 29; App.longitude := 78 |} ].

Definition theme_weights : gmap string Q :=
  App.sidebar_weights (3 # 10) (1 # 10) (3 # 10) (3 # 10).

(** A request without attractions. *)
Definition rq_empty : Request :=
  {| attractions := {| rows := []; has_category := true |};
     distances := {| shape_rows := 0; shape_cols := 0; cell := λ _ _, 0%Q |};
     days := 3;
     budget_day := 1500;
     time_day := 8;
     weights := None;
     avg_speed_kmph := 20;
     travel_cost_per_km := 20;
     alpha := Some (1 # 100)%Q;
     time_limit_seconds := 60 |}.

End AppDemo.

(** * Lemmas *)

(** ** Sums *)

Lemma fold_left_Qplus (l : list Q) (a : Q) :
  (fold_left Qplus l a == a + py_sum l)%Q.
Proof.
  unfold py_sum. revert a.
  induction l as [|x l IH]; intros a; simpl.
  - ring.
  - rewrite (IH (a + x)%Q), (IH (0 + x)%Q). ring.
Qed.

Lemma py_sum_nil : py_sum [] = 0%Q.
Proof. reflexivity. Qed.

Lemma py_sum_cons (x : Q) (l : list Q) : (py_sum (x :: l) == x + py_sum l)%Q.
Proof. unfold py_sum at 1. simpl. rewrite fold_left_Qplus. ring. Qed.

Lemma py_sum_app (l1 l2 : list Q) : (py_sum (l1 ++ l2) == py_sum l1 + py_sum l2)%Q.
Proof.
  induction l1 as [|x l1 IH]; simpl.
  - rewrite py_sum_nil. ring.
  - rewrite !py_sum_cons, IH. ring.
Qed.

Lemma py_sum_perm (l1 l2 : list Q) : l1 ≡ₚ l2 → (py_sum l1 == py_sum l2)%Q.
Proof.
  induction 1 as [|x l1 l2 _ IH|x y l|l1 l2 l3 _ IH1 _ IH2].
  - reflexivity.
  - rewrite !py_sum_cons, IH. reflexivity.
  - rewrite !py_sum_cons. ring.
  - rewrite IH1. exact IH2.
Qed.

Lemma py_sum_bind_seq (k : nat) (g : nat → list Q) :
  (py_sum (seq 0 k ≫= g) == big_sum k (λ i, py_sum (g i)))%Q.
Proof.
  induction k as [|k IH]; [reflexivity|].
  rewrite seq_S, bind_app, py_sum_app, IH. simpl.
  rewrite app_nil_r. reflexivity.
Qed.

Lemma big_sum_ext (k : nat) (f g : nat → Q) :
  (∀ i, i < k → (f i == g i)%Q) → (big_sum k f == big_sum k g)%Q.
Proof.
  induction k as [|k IH]; intros Hfg; simpl; [reflexivity|].
  rewrite IH, (Hfg k) by (intros; try apply Hfg; lia). reflexivity.
Qed.

Lemma py_sum_nonneg (l : list Q) :
  Forall (λ x, (0 <= x)%Q) l → (0 <= py_sum l)%Q.
Proof.
  induction 1 as [|x l Hx _ IH]; [apply Qle_refl|].
  rewrite py_sum_cons. lra.
Qed.

Lemma py_sum_member_le (l : list Q) (x : Q) :
  Forall (λ y, (0 <= y)%Q) l → x ∈ l → (x <= py_sum l)%Q.
Proof.
  induction 1 as [|y l Hy Hl IH]; intros Hin; [by apply elem_of_nil in Hin|].
  rewrite py_sum_cons.
  apply elem_of_cons in Hin as [->|Hin].
  - pose proof (py_sum_nonneg l Hl). lra.
  - specialize (IH Hin). lra.
Qed.

(** ** The successor map *)

Lemma adj_row_lookup_ne σ d i js (adj : gmap nat (list nat)) i' :
  i' ≠ i → adj_row σ d i js adj !! i' = adj !! i'.
Proof.
  intros Hne. revert adj.
  induction js as [|j js IH]; intros adj; simpl; [done|].
  fold (adj_row σ d i js).
  destruct (decide (i = j)); [apply IH|].
  destruct (arc σ i j d); [|apply IH].
  rewrite IH. unfold setdefault_append. by rewrite lookup_insert_ne.
Qed.

Lemma adj_row_lookup σ d i js (adj : gmap nat (list nat)) :
  adj_row σ d i js adj !! i =
    match filter (λ j, j ≠ i ∧ arc σ i j d) js with
    | [] => adj !! i
    | l => Some (default [] (adj !! i) ++ l)
    end.
Proof.
  revert adj.
  induction js as [|j js IH]; intros adj; simpl; [done|].
  fold (adj_row σ d i js). rewrite filter_cons.
  destruct (decide (i = j)) as [->|Hij].
  { rewrite decide_False by (intros [? _]; done). apply IH. }
  destruct (arc σ i j d) eqn:Harc.
  - rewrite decide_True by (split; [congruence|done]).
    rewrite IH. unfold setdefault_append. rewrite lookup_insert_eq. simpl.
    destruct (filter _ js); [done|].
    by rewrite <-app_assoc.
  - rewrite decide_False by (intros [_ ?]; done). apply IH.
Qed.

Lemma adj_rows_lookup σ d (js rows_ : list nat) (adj : gmap nat (list nat)) i :
  NoDup rows_ →
  fold_left (λ adj i, adj_row σ d i js adj) rows_ adj !! i =
    if decide (i ∈ rows_) then adj_row σ d i js adj !! i else adj !! i.
Proof.
  intros Hnd. revert adj.
  induction Hnd as [|r rows_ Hr _ IH]; intros adj; simpl.
  - done.
  - rewrite IH.
    destruct (decide (i = r)) as [->|Hne].
    + rewrite decide_False by done.
      by rewrite decide_True by apply list_elem_of_here.
    + repeat case_decide; rewrite ?elem_of_cons in *; try tauto.
      * rewrite !adj_row_lookup. by rewrite adj_row_lookup_ne.
      * by apply adj_row_lookup_ne.
Qed.

Lemma adj_of_day_lookup σ n d i :
  adj_of_day σ n d !! i =
    if decide (i < n) then
      match outs σ n d i with [] => None | l => Some l end
    else None.
Proof.
  unfold adj_of_day.
  change (fold_left _ (seq 0 n) ∅) with
    (fold_left (λ adj i, adj_row σ d i (seq 0 n) adj) (seq 0 n) ∅).
  rewrite adj_rows_lookup by apply NoDup_seq.
  destruct (decide (i < n)) as [Hlt|Hge].
  - rewrite decide_True by (apply elem_of_seq; lia).
    rewrite adj_row_lookup, lookup_empty. reflexivity.
  - rewrite decide_False by (rewrite elem_of_seq; lia).
    apply lookup_empty.
Qed.

Lemma succ_of_lookup σ n d i :
  succ_of (adj_of_day σ n d) !! i =
    if decide (i < n) then head (outs σ n d i) else None.
Proof.
  unfold succ_of. rewrite lookup_omap, adj_of_day_lookup.
  destruct (decide (i < n)); [|done].
  by destruct (outs σ n d i).
Qed.

Lemma elem_of_outs σ n d i j :
  j ∈ outs σ n d i ↔ j < n ∧ j ≠ i ∧ arc σ i j d.
Proof.
  unfold outs. rewrite list_elem_of_filter, elem_of_seq. intuition lia.
Qed.

(** A recorded successor is the head of a used arc. *)
Lemma succ_of_Some σ n d i j :
  succ_of (adj_of_day σ n d) !! i = Some j →
  i < n ∧ j < n ∧ i ≠ j ∧ arc σ i j d.
Proof.
  rewrite succ_of_lookup.
  destruct (decide (i < n)) as [Hi|]; [|done].
  intros Hhd. apply head_Some_elem_of, elem_of_outs in Hhd.
  intuition.
Qed.

(** A node without recorded successor has no used outgoing arc. *)
Lemma succ_of_None σ n d i j :
  i < n → succ_of (adj_of_day σ n d) !! i = None →
  j < n → j ≠ i → arc σ i j d = false.
Proof.
  rewrite succ_of_lookup. intros Hi.
  rewrite decide_True by done.
  intros Hhd Hj Hne. apply head_None in Hhd.
  destruct (arc σ i j d) eqn:Harc; [|done].
  assert (j ∈ outs σ n d i) as Hin by (apply elem_of_outs; rewrite Harc; done).
  rewrite Hhd in Hin. by apply elem_of_nil in Hin.
Qed.

(** ** The chain walk *)

Section walk_lemmas.
Context {A : Type} (label : nat → A) (n : nat) (succ : gmap nat nat).
Hypothesis succ_lt : ∀ a b, succ !! a = Some b → b < n.

(** The loop consumes exactly a chain of the specification. *)
Lemma walk_spec_chain (visited : gset nat) (cur : nat) (chain : list A) :
  cur < n →
  ∃ new visited',
    walk label n succ visited cur chain = (visited', chain ++ (label <$> new))
    ∧ spec_chain (λ i, succ !! i) visited cur new visited'.
Proof.
  funelim (walk label n succ visited cur chain); intros Hcur.
  - exists [], visited. rewrite app_nil_r. split; [done|].
    apply chain_visited.
    destruct (decide (cur ∈ visited)) as [|Hnot]; [done|].
    exfalso. match goal with H : ¬ (_ ∧ _) |- _ => apply H; by split end.
  - pose proof Hc as [Hnot _].
    match goal with E : succ !! cur = Some nxt |- _ => rename E into Hnxt end.
    match goal with IH : _ < n → ∃ _ _, _ |- _ =>
      destruct (IH (succ_lt _ _ Hnxt)) as (new & v' & Hw & Hch) end.
    exists (cur :: new), v'. split.
    + rewrite Hw. by rewrite <-app_assoc.
    + by eapply chain_step.
  - pose proof Hc as [Hnot _].
    exists [cur], ({[cur]} ∪ visited). split; [done|].
    by apply chain_end.
Qed.

(** One turn of the loop over the starts, then the whole loop. *)
Lemma route_steps_spec_chains (starts : list nat) (visited : gset nat)
    (routes : list (list A)) :
  Forall (λ s, s < n) starts →
  ∃ (chains : list (list nat)) visited',
    fold_left (route_step label n succ) starts (visited, routes)
      = (visited', routes ++ (fmap (M:=list) label <$> chains))
    ∧ spec_chains (λ i, succ !! i) visited starts chains visited'.
Proof.
  intros Hlt. revert visited routes.
  induction Hlt as [|s starts Hs _ IH]; intros visited routes; simpl.
  - exists [], visited. rewrite app_nil_r. split; [done|constructor].
  - unfold route_step at 2. simpl.
    destruct (decide (s ∈ visited)) as [Hin|Hnot].
    + destruct (IH visited routes) as (chains & v' & Hf & Hcs).
      exists chains, v'. split; [done|]. by apply chains_skip.
    + destruct (walk_spec_chain visited s [] Hs) as (new & v1 & Hw & Hch).
      rewrite Hw. simpl.
      destruct (IH v1 (routes ++ [label <$> new])) as (chains & v' & Hf & Hcs).
      exists (new :: chains), v'. split.
      * rewrite Hf. by rewrite <-app_assoc.
      * by eapply chains_walk.
Qed.
End walk_lemmas.

(** ** What a chain of the specification consumes *)

Section chains.
Context (succ : nat → option nat).

Lemma spec_chain_visited v cur chain v' :
  spec_chain succ v cur chain v' → v' = list_to_set chain ∪ v.
Proof.
  induction 1 as [v cur Hin|v cur Hnot Hnone|v cur nxt chain v' Hnot Hnxt _ IH];
    simpl; [set_solver..|].
  rewrite IH. set_solver.
Qed.

Lemma spec_chain_fresh v cur chain v' :
  spec_chain succ v cur chain v' → NoDup chain ∧ ∀ x, x ∈ chain → x ∉ v.
Proof.
  induction 1 as [v cur Hin|v cur Hnot Hnone|v cur nxt chain v' Hnot Hnxt _ [IH1 IH2]].
  - split; [constructor|]. intros x Hx. by apply elem_of_nil in Hx.
  - split; [apply NoDup_singleton|].
    intros x Hx. apply list_elem_of_singleton in Hx. by subst.
  - split.
    + constructor; [|done]. intros Hc. apply IH2 in Hc. set_solver.
    + intros x Hx. apply elem_of_cons in Hx as [->|Hx]; [done|].
      apply IH2 in Hx. set_solver.
Qed.

(** Every consumed node is the start or a successor of a consumed one. *)
Lemma spec_chain_closed (P : nat → Prop) v cur chain v' :
  (∀ a b, P a → succ a = Some b → P b) →
  spec_chain succ v cur chain v' → P cur → Forall P chain.
Proof.
  intros Hclosed.
  induction 1 as [v cur Hin|v cur Hnot Hnone|v cur nxt chain v' Hnot Hnxt _ IH];
    intros Hcur.
  - constructor.
  - by repeat constructor.
  - constructor; [done|]. apply IH. by eapply Hclosed.
Qed.

Lemma spec_chain_head v cur chain v' :
  spec_chain succ v cur chain v' → cur ∉ v → head chain = Some cur.
Proof. by destruct 1. Qed.

(** Consecutive nodes of a chain are joined by the successor map. *)
Lemma spec_chain_consecutive v cur chain v' k a b :
  spec_chain succ v cur chain v' →
  chain !! k = Some a → chain !! S k = Some b → succ a = Some b.
Proof.
  intros Hch. revert k.
  induction Hch as [v cur Hin|v cur Hnot Hnone|v cur nxt chain v' Hnot Hnxt Hch IH];
    intros k Ha Hb; [done|by destruct k|].
  destruct k as [|k]; simpl in *.
  - injection Ha as ->.
    destruct Hch as [v0 c0 Hin| |]; simpl in Hb; [done|..];
      by injection Hb as ->.
  - by eapply IH.
Qed.

Lemma spec_chains_visited v starts chains v' :
  spec_chains succ v starts chains v' → v' = list_to_set (concat chains) ∪ v.
Proof.
  induction 1 as [v|v s starts chains v' Hin _ IH
                 |v s starts chain v1 chains v' Hnot Hch _ IH]; simpl.
  - set_solver.
  - done.
  - rewrite IH, (spec_chain_visited _ _ _ _ Hch).
    rewrite list_to_set_app_L. set_solver.
Qed.

Lemma spec_chains_fresh v starts chains v' :
  spec_chains succ v starts chains v' →
  NoDup (concat chains) ∧ ∀ x, x ∈ concat chains → x ∉ v.
Proof.
  induction 1 as [v|v s starts chains v' Hin _ IH
                 |v s starts chain v1 chains v' Hnot Hch _ [IH1 IH2]]; simpl.
  - split; [constructor|]. intros x Hx. by apply elem_of_nil in Hx.
  - done.
  - destruct (spec_chain_fresh _ _ _ _ Hch) as [Hnd Hfr].
    pose proof (spec_chain_visited _ _ _ _ Hch) as Hv1. subst v1.
    split.
    + apply NoDup_app. split_and!; [done| |done].
      intros x Hx Hx'. apply IH2 in Hx'. set_solver.
    + intros x Hx. apply elem_of_app in Hx as [Hx|Hx]; [by apply Hfr|].
      apply IH2 in Hx. set_solver.
Qed.

Lemma spec_chains_closed (P : nat → Prop) v starts chains v' :
  (∀ a b, P a → succ a = Some b → P b) →
  spec_chains succ v starts chains v' → Forall P starts →
  Forall P (concat chains).
Proof.
  intros Hclosed.
  induction 1 as [v|v s starts chains v' Hin _ IH
                 |v s starts chain v1 chains v' Hnot Hch _ IH];
    intros Hst; simpl.
  - constructor.
  - apply IH. by eapply Forall_inv_tail.
  - apply Forall_app. split.
    + eapply spec_chain_closed; [done..|]. by eapply Forall_inv.
    + apply IH. by eapply Forall_inv_tail.
Qed.

(** Every start ends up consumed. *)
Lemma spec_chains_starts v starts chains v' :
  spec_chains succ v starts chains v' → ∀ s, s ∈ starts → s ∈ v'.
Proof.
  induction 1 as [v|v s starts chains v' Hin Hcs IH
                 |v s starts chain v1 chains v' Hnot Hch Hcs IH];
    intros x Hx.
  - by apply elem_of_nil in Hx.
  - apply elem_of_cons in Hx as [->|Hx]; [|by apply IH].
    rewrite (spec_chains_visited _ _ _ _ Hcs). set_solver.
  - apply elem_of_cons in Hx as [->|Hx]; [|by apply IH].
    rewrite (spec_chains_visited _ _ _ _ Hcs).
    rewrite (spec_chain_visited _ _ _ _ Hch).
    apply spec_chain_head in Hch; [|done].
    destruct chain as [|c chain]; [done|]. simpl in Hch. injection Hch as ->.
    set_solver.
Qed.
End chains.

(** ** The decoded day *)

Lemma assigned_of_elem σ n d i : i ∈ assigned_of σ n d ↔ i < n ∧ visit σ i d.
Proof.
  unfold assigned_of. rewrite list_elem_of_filter, elem_of_seq. intuition lia.
Qed.

Lemma assigned_of_NoDup σ n d : NoDup (assigned_of σ n d).
Proof. apply NoDup_filter, NoDup_seq. Qed.

(** The decoder produces the labels of the chains of the specification, walked
    from the assigned indices along the successor map. *)
Lemma decode_day_chains {A} (label : nat → A) n σ d :
  ∃ chains : list (list nat),
    spec_chains (λ i, succ_of (adj_of_day σ n d) !! i) ∅ (assigned_of σ n d)
      chains (list_to_set (concat chains))
    ∧ day_routes label n σ d = fmap (M:=list) label <$> chains
    ∧ decode_day label n σ d = label <$> concat chains.
Proof.
  destruct (route_steps_spec_chains label n (succ_of (adj_of_day σ n d))
              (λ a b H, proj1 (proj2 (succ_of_Some σ n d a b H)))
              (assigned_of σ n d) ∅ [])
    as (chains & v' & Hfold & Hcs).
  { apply Forall_forall. intros i Hi. by apply assigned_of_elem in Hi as [? _]. }
  exists chains.
  pose proof (spec_chains_visited _ _ _ _ _ Hcs) as Hv'.
  rewrite (right_id_L ∅ (∪)) in Hv'. subst v'.
  assert (day_routes label n σ d = fmap (M:=list) label <$> chains) as Hroutes.
  { unfold day_routes. by rewrite Hfold. }
  split_and!; [done..|].
  unfold decode_day. rewrite Hroutes.
  symmetry. apply concat_map.
Qed.

Lemma decode_day_indices {A} (label : nat → A) n σ d :
  decode_day label n σ d = label <$> day_indices n σ d.
Proof.
  unfold day_indices.
  destruct (decode_day_chains label n σ d) as (c1 & Hc1 & _ & ->).
  destruct (decode_day_chains id n σ d) as (c2 & Hc2 & _ & ->).
  rewrite list_fmap_id.
  (* both runs walk the same chains: the walk does not look at the labels *)
  f_equal. f_equal.
  revert Hc1 Hc2.
  generalize (list_to_set (C:=gset nat) (concat c1)).
  generalize (list_to_set (C:=gset nat) (concat c2)).
  generalize (assigned_of σ n d). generalize (∅ : gset nat).
  generalize (λ i, succ_of (adj_of_day σ n d) !! i).
  clear. intros succ v starts v2 v1 H1. revert c2 v2.
  assert (chain_det : ∀ v cur ch1 w1 ch2 w2,
    spec_chain succ v cur ch1 w1 → spec_chain succ v cur ch2 w2 →
    ch1 = ch2 ∧ w1 = w2).
  { clear. intros v cur ch1 w1 ch2 w2 H1. revert ch2 w2.
    induction H1 as [v cur Hin|v cur Hnot Hnone|v cur nxt chain v' Hnot Hnxt _ IH];
      intros ch2 w2 H2; inversion H2; subst; try done; try congruence.
    match goal with
    | E1 : succ cur = Some ?a, E2 : succ cur = Some ?b |- _ =>
        assert (a = b) by congruence; subst
    end.
    match goal with
    | Hc : spec_chain _ _ _ _ _ |- _ => destruct (IH _ _ Hc) as [-> ->]
    end. done. }
  induction H1 as [v|v s starts chains v' Hin _ IH
                  |v s starts chain v1 chains v' Hnot Hch _ IH];
    intros c2 v2 H2; inversion H2; subst; try done.
  - by eapply IH.
  - match goal with
    | Hc : spec_chain _ _ _ _ _ |- _ =>
        destruct (chain_det _ _ _ _ _ _ Hch Hc) as [-> ->]
    end.
    f_equal. by eapply IH.
Qed.

Lemma day_indices_NoDup n σ d : NoDup (day_indices n σ d).
Proof.
  unfold day_indices.
  destruct (decode_day_chains id n σ d) as (chains & Hcs & _ & ->).
  rewrite list_fmap_id. by apply spec_chains_fresh in Hcs as [? _].
Qed.

Lemma day_indices_lt n σ d i : i ∈ day_indices n σ d → i < n.
Proof.
  unfold day_indices.
  destruct (decode_day_chains id n σ d) as (chains & Hcs & _ & ->).
  rewrite list_fmap_id. revert i. apply Forall_forall.
  eapply (spec_chains_closed _ (λ i, i < n)); [|done|].
  - intros a b _ Hab. by apply succ_of_Some in Hab as (_ & ? & _).
  - apply Forall_forall. intros i Hi. by apply assigned_of_elem in Hi as [? _].
Qed.

(** Every assigned index is decoded. *)
Lemma day_indices_assigned n σ d i :
  i ∈ assigned_of σ n d → i ∈ day_indices n σ d.
Proof.
  unfold day_indices.
  destruct (decode_day_chains id n σ d) as (chains & Hcs & _ & ->).
  rewrite list_fmap_id. intros Hi.
  eapply spec_chains_starts in Hi; [|done].
  by apply elem_of_list_to_set in Hi.
Qed.

(** When the used arcs stay within the assigned indices, nothing else is
    decoded. *)
Lemma day_indices_within n σ d i :
  arcs_within_assigned σ n d →
  i ∈ day_indices n σ d → i ∈ assigned_of σ n d.
Proof.
  intros Hwithin. unfold day_indices.
  destruct (decode_day_chains id n σ d) as (chains & Hcs & _ & ->).
  rewrite list_fmap_id. revert i. apply Forall_forall.
  eapply (spec_chains_closed _ (λ i, i ∈ assigned_of σ n d)); [|done|].
  - intros a b Ha Hab. apply succ_of_Some in Hab as (Ha' & Hb & Hne & Harc).
    apply assigned_of_elem. split; [done|].
    by destruct (Hwithin a b Ha' Hb Hne Harc).
  - by apply Forall_forall.
Qed.

Lemma day_indices_perm n σ d :
  arcs_within_assigned σ n d → day_indices n σ d ≡ₚ assigned_of σ n d.
Proof.
  intros Hwithin.
  apply NoDup_Permutation;
    [apply day_indices_NoDup|apply assigned_of_NoDup|].
  intros i. split; [by apply day_indices_within|apply day_indices_assigned].
Qed.

Lemma day_indices_length n σ d : length (day_indices n σ d) ≤ n.
Proof.
  transitivity (length (seq 0 n)); [|by rewrite length_seq].
  apply submseteq_length, NoDup_submseteq; [apply day_indices_NoDup|].
  intros i Hi. apply day_indices_lt in Hi. apply elem_of_seq. lia.
Qed.

(** Names of distinct indices are distinct when the names are unique. *)
Lemma names_inj (names : list string) i j :
  NoDup names → i < length names → j < length names →
  names !!! i = names !!! j → i = j.
Proof.
  intros Hnd Hi Hj Heq.
  destruct (lookup_lt_is_Some_2 names i Hi) as [x Hx].
  destruct (lookup_lt_is_Some_2 names j Hj) as [y Hy].
  rewrite (list_lookup_total_correct _ _ _ Hx) in Heq.
  rewrite (list_lookup_total_correct _ _ _ Hy) in Heq. subst y.
  by eapply NoDup_lookup.
Qed.

Lemma NoDup_fmap_inj_on {A B} (f : A → B) (l : list A) :
  (∀ x y, x ∈ l → y ∈ l → f x = f y → x = y) → NoDup l → NoDup (f <$> l).
Proof.
  intros Hinj Hnd. induction Hnd as [|x l Hx Hnd IH]; simpl; [constructor|].
  constructor.
  - intros Hin. apply list_elem_of_fmap in Hin as (y & Hxy & Hy).
    apply Hinj in Hxy; [by subst|by left|by right].
  - apply IH. intros a b Ha Hb. apply Hinj; by right.
Qed.

(** ** Building the model: when it raises *)

Lemma traverse_Return {A B} (f : A → result B) (g : A → B) (l : list A) :
  (∀ a, a ∈ l → f a = Return (g a)) → traverse f l = Return (g <$> l).
Proof.
  induction l as [|a l IH]; intros Hf; simpl; [done|].
  rewrite (Hf a) by left. simpl.
  rewrite IH by (intros; apply Hf; by right). done.
Qed.

Lemma traverse_inv {A B} (f : A → result B) (l : list A) (bs : list B) :
  traverse f l = Return bs →
  length bs = length l ∧
  ∀ k a, l !! k = Some a → ∃ b, f a = Return b ∧ bs !! k = Some b.
Proof.
  revert bs. induction l as [|a l IH]; intros bs; simpl.
  - intros [= <-]. split; [done|]. intros k a' Hk. done.
  - destruct (f a) as [b|e] eqn:Hfa; simpl; [|done].
    destruct (traverse f l) as [bs'|e] eqn:Htr; simpl; [|done].
    intros [= <-]. destruct (IH bs' eq_refl) as [Hlen Hall].
    split; [simpl; by rewrite Hlen|].
    intros [|k] a' Hk; simpl in *.
    + injection Hk as <-. by exists b.
    + by apply Hall.
Qed.

Lemma at_Return (M : Matrix) i j q :
  at_ M i j = Return q ↔ (i < shape_rows M ∧ j < shape_cols M) ∧ q = cell M i j.
Proof.
  unfold at_.
  destruct (Nat.ltb_spec i (shape_rows M)) as [Hi|Hi];
    destruct (Nat.ltb_spec j (shape_cols M)) as [Hj|Hj]; simpl.
  - split; [by intros [= <-]|by intros [_ ->]].
  - split; [done|intros [[??] _]; lia].
  - split; [done|intros [[??] _]; lia].
  - split; [done|intros [[??] _]; lia].
Qed.

Lemma at_in_bounds (M : Matrix) i j :
  i < shape_rows M → j < shape_cols M → at_ M i j = Return (cell M i j).
Proof. intros. by apply at_Return. Qed.

Lemma travel_time_shape rq :
  shape_rows (travel_time_of rq) = shape_rows (distances rq)
  ∧ shape_cols (travel_time_of rq) = shape_cols (distances rq).
Proof. unfold travel_time_of. by destruct (falsy _). Qed.

Lemma elem_of_arc_pairs n i j :
  (i, j) ∈ arc_pairs n ↔ i < n ∧ j < n ∧ i ≠ j.
Proof.
  unfold arc_pairs. rewrite list_elem_of_bind. split.
  - intros (i' & Hin & Hi'). apply list_elem_of_bind in Hin as (j' & Hin & Hj').
    apply elem_of_seq in Hi', Hj'.
    destruct (decide (i' = j')); [by apply elem_of_nil in Hin|].
    apply list_elem_of_singleton in Hin as [= -> ->]. lia.
  - intros (Hi & Hj & Hne). exists i. split; [|apply elem_of_seq; lia].
    apply list_elem_of_bind. exists j. split; [|apply elem_of_seq; lia].
    rewrite decide_False by done. by apply list_elem_of_singleton.
Qed.

Lemma elem_of_x_keys n ndays i j d :
  (i, j, d) ∈ x_keys n ndays ↔ i < n ∧ j < n ∧ i ≠ j ∧ d < ndays.
Proof.
  unfold x_keys. rewrite list_elem_of_bind. split.
  - intros (d' & Hin & Hd'). apply elem_of_seq in Hd'.
    apply list_elem_of_fmap in Hin as ([i' j'] & [= -> -> ->] & Hin).
    apply elem_of_arc_pairs in Hin. intuition lia.
  - intros (Hi & Hj & Hne & Hd). exists d. split; [|apply elem_of_seq; lia].
    apply list_elem_of_fmap. exists (i, j). split; [done|].
    by apply elem_of_arc_pairs.
Qed.

Lemma elem_of_y_keys n ndays i d :
  (i, d) ∈ y_keys n ndays ↔ i < n ∧ d < ndays.
Proof.
  unfold y_keys. rewrite list_elem_of_bind. split.
  - intros (d' & Hin & Hd'). apply elem_of_seq in Hd'.
    apply list_elem_of_bind in Hin as (i' & Hin & Hi'). apply elem_of_seq in Hi'.
    apply list_elem_of_singleton in Hin as [= -> ->]. lia.
  - intros [Hi Hd]. exists d. split; [|apply elem_of_seq; lia].
    apply list_elem_of_bind. exists i. split; [|apply elem_of_seq; lia].
    by apply list_elem_of_singleton.
Qed.

Lemma time_constraints_covers rq :
  covers (distances rq) (length (names_of rq)) →
  time_constraints (length (names_of rq)) (days rq) (visit_time_of rq)
    (travel_time_of rq) (time_day rq)
  = Return (time_constraint rq <$> seq 0 (days rq)).
Proof.
  intros Hcov. unfold time_constraints.
  apply traverse_Return. intros d _.
  rewrite (traverse_Return _
    (λ '(i, j), EScale (cell (travel_time_of rq) i j) (EVar (X i j d)))).
  { done. }
  intros [i j] Hin. apply elem_of_arc_pairs in Hin as (Hi & Hj & Hne).
  destruct (Hcov i j Hi Hj Hne) as [Hr Hc].
  destruct (travel_time_shape rq) as [Er Ec].
  rewrite at_in_bounds by congruence. done.
Qed.

Lemma time_constraints_inv rq timec :
  time_constraints (length (names_of rq)) (days rq) (visit_time_of rq)
    (travel_time_of rq) (time_day rq) = Return timec →
  0 < days rq → covers (distances rq) (length (names_of rq)).
Proof.
  intros Htr Hdays i j Hi Hj Hne.
  apply traverse_inv in Htr as [_ Hall].
  destruct (Hall 0 0) as (c & Hc & _).
  { apply lookup_seq. lia. }
  destruct (traverse _ (arc_pairs _)) as [terms|e] eqn:Hterms; [|done].
  apply traverse_inv in Hterms as [_ Hterms].
  assert ((i, j) ∈ arc_pairs (length (names_of rq))) as Hin
    by (by apply elem_of_arc_pairs).
  apply list_elem_of_lookup in Hin as [k Hk].
  destruct (Hterms k (i, j) Hk) as (b & Hb & _).
  simpl in Hb.
  destruct (at_ (travel_time_of rq) i j) as [q|e] eqn:Hat; [|done].
  apply at_Return in Hat as [[Hr Hcl] _].
  destruct (travel_time_shape rq) as [Er Ec]. split; congruence.
Qed.

Lemma build_objective_covers n ndays fun_ dist alpha :
  covers dist n → ∃ obj, build_objective n ndays fun_ dist alpha = Return obj.
Proof.
  intros Hcov. unfold build_objective.
  destruct alpha as [a|]; [|by eexists].
  destruct (Qeq_bool a 0); [by eexists|].
  rewrite (traverse_Return _ (λ '(i, j, d), (X i j d, (- a * cell dist i j)%Q))).
  { by eexists. }
  intros [[i j] d] Hin. apply elem_of_x_keys in Hin as (Hi & Hj & Hne & _).
  destruct (Hcov i j Hi Hj Hne). by rewrite at_in_bounds.
Qed.

Lemma no_days_covers rq :
  days rq = 0 →
  time_constraints (length (names_of rq)) (days rq) (visit_time_of rq)
    (travel_time_of rq) (time_day rq) = Return []
  ∧ ∃ obj, build_objective (length (names_of rq)) (days rq) (fun_of rq)
             (distances rq) (alpha rq) = Return obj.
Proof.
  intros Hz. rewrite Hz. split; [done|].
  unfold build_objective, x_keys, y_keys. simpl.
  destruct (alpha rq) as [a|]; [|by eexists].
  destruct (Qeq_bool a 0); by eexists.
Qed.

Lemma SetTimeLimit_Return ms z :
  SetTimeLimit ms = Return z ↔ fits_int64 ms ∧ z = ms.
Proof.
  unfold SetTimeLimit, fits_int64.
  destruct (Z.leb_spec (- 2 ^ 63) ms); destruct (Z.ltb_spec ms (2 ^ 63)); simpl.
  - split; [by intros [= <-]|by intros [_ ->]].
  - split; [done|intros [[??] _]; lia].
  - split; [done|intros [[??] _]; lia].
  - split; [done|intros [[??] _]; lia].
Qed.

Lemma SetTimeLimit_Raise ms e :
  SetTimeLimit ms = Raise e ↔ ¬ fits_int64 ms ∧ e = OverflowError.
Proof.
  unfold SetTimeLimit, fits_int64.
  destruct (Z.leb_spec (- 2 ^ 63) ms); destruct (Z.ltb_spec ms (2 ^ 63)); simpl.
  - split; [done|intros [Hn _]; exfalso; apply Hn; lia].
  - split; [intros [= <-]; split; [lia|done]|by intros [_ ->]].
  - split; [intros [= <-]; split; [lia|done]|by intros [_ ->]].
  - split; [intros [= <-]; split; [lia|done]|by intros [_ ->]].
Qed.

(** The model is built exactly when the time limit fits and there are no
    days or the distance matrix covers the attraction pairs. *)
Lemma build_model_Return rq :
  fits_int64 (py_int (time_limit_seconds rq * 1000)) →
  days rq = 0 ∨ covers (distances rq) (length (names_of rq)) →
  ∃ m, build_model rq = Return m
       ∧ variables m = declare_variables (length (names_of rq)) (days rq)
       ∧ constraints m = model_constraints rq.
Proof.
  intros Hfits Hc. unfold build_model.
  rewrite (proj2 (SetTimeLimit_Return _ _) (conj Hfits eq_refl)).
  cbn [mbind result_bind].
  destruct Hc as [Hz|Hcov].
  - destruct (no_days_covers rq Hz) as [Ht [obj Ho]].
    rewrite Ho, Ht. simpl. eexists. split_and!; [done..|].
    unfold model_constraints. simpl. by rewrite Hz.
  - destruct (build_objective_covers (length (names_of rq)) (days rq)
                (fun_of rq) _ (alpha rq) Hcov) as [obj Ho].
    rewrite Ho, (time_constraints_covers rq Hcov). simpl.
    eexists. split_and!; done.
Qed.

Lemma build_model_fits rq m :
  build_model rq = Return m →
  fits_int64 (py_int (time_limit_seconds rq * 1000)).
Proof.
  unfold build_model.
  destruct (SetTimeLimit _) as [limit|e] eqn:Hl; [|done].
  intros _. by apply SetTimeLimit_Return in Hl as [? _].
Qed.

Lemma build_model_inv rq m :
  build_model rq = Return m →
  (days rq = 0 ∨ covers (distances rq) (length (names_of rq)))
  ∧ variables m = declare_variables (length (names_of rq)) (days rq)
  ∧ constraints m = model_constraints rq.
Proof.
  intros Hb. pose proof (build_model_fits rq m Hb) as Hfits.
  assert (days rq = 0 ∨ covers (distances rq) (length (names_of rq))) as Hc.
  { destruct (decide (days rq = 0)) as [|Hnz]; [by left|right].
    unfold build_model in Hb.
    destruct (SetTimeLimit _) as [limit|e]; [|done]. cbn [mbind result_bind] in Hb.
    destruct (build_objective _ _ _ _ _) as [obj|e]; [|done]. simpl in Hb.
    destruct (time_constraints _ _ _ _ _) as [timec|e] eqn:Ht; [|done].
    eapply time_constraints_inv; [done|lia]. }
  split; [done|].
  destruct (build_model_Return rq Hfits Hc) as (m' & Hm' & Hv & Hcs).
  rewrite Hb in Hm'. injection Hm' as <-. done.
Qed.

Lemma traverse_Raise {A B} (f : A → result B) (l : list A) e :
  traverse f l = Raise e → ∃ a, a ∈ l ∧ f a = Raise e.
Proof.
  induction l as [|a l IH]; simpl; [done|].
  destruct (f a) as [b|e'] eqn:Hfa; simpl.
  - destruct (traverse f l) as [bs|e'] eqn:Htr; simpl; [done|].
    intros [= ->]. destruct (IH eq_refl) as (x & Hx & Hfx).
    exists x. split; [by right|done].
  - intros [= ->]. exists a. split; [left|done].
Qed.

Lemma at_Raise (M : Matrix) i j e : at_ M i j = Raise e → e = IndexError.
Proof. unfold at_. destruct (_ && _); [done|]. by intros [= <-]. Qed.

Lemma build_model_Raise rq e :
  build_model rq = Raise e →
  (¬ fits_int64 (py_int (time_limit_seconds rq * 1000)) ∧ e = OverflowError)
  ∨ (fits_int64 (py_int (time_limit_seconds rq * 1000)) ∧ e = IndexError).
Proof.
  unfold build_model.
  destruct (SetTimeLimit _) as [limit|e0] eqn:Hl; cbn [mbind result_bind].
  2:{ intros [= ->]. left. by apply SetTimeLimit_Raise in Hl. }
  apply SetTimeLimit_Return in Hl as [Hfits _].
  intros Hb. right. split; [done|]. revert Hb.
  destruct (build_objective _ _ _ _ _) as [obj|e0] eqn:Ho; simpl.
  - destruct (time_constraints _ _ _ _ _) as [timec|e0] eqn:Ht; simpl; [done|].
    intros [= ->]. unfold time_constraints in Ht.
    apply traverse_Raise in Ht as (d & _ & Ht).
    destruct (traverse _ (arc_pairs _)) as [terms|e0] eqn:Hterms; [done|].
    simpl in Ht. injection Ht as ->.
    apply traverse_Raise in Hterms as ([i j] & _ & Hat).
    destruct (at_ (travel_time_of rq) i j) as [q|e0] eqn:Hq; [done|].
    simpl in Hat. injection Hat as ->. by eapply at_Raise.
  - intros [= ->]. unfold build_objective in Ho.
    destruct (alpha rq) as [a|]; [|done].
    destruct (Qeq_bool a 0); [done|].
    destruct (traverse _ (x_keys _ _)) as [terms|e0] eqn:Hterms; [done|].
    simpl in Ho. injection Ho as ->.
    apply traverse_Raise in Hterms as ([[i j] d] & _ & Hat).
    destruct (at_ (distances rq) i j) as [q|e0] eqn:Hq; [done|].
    simpl in Hat. injection Hat as ->. by eapply at_Raise.
Qed.

(** ** The totals *)

Lemma fmap_bind_list {A B C} (f : B → C) (g : A → list B) (l : list A) :
  f <$> (l ≫= g) = l ≫= (λ x, f <$> g x).
Proof.
  induction l as [|a l IH]; [done|].
  by rewrite !bind_cons, fmap_app, IH.
Qed.

Lemma py_sum_guard (c : bool) (x : Q) :
  (py_sum (if c then [x] else []) == if c then x else 0)%Q.
Proof. destruct c; [rewrite py_sum_cons, py_sum_nil; ring|reflexivity]. Qed.

Lemma total_entry_cost_of_spec σ n ndays (fee : list Q) :
  (total_entry_cost_of σ n ndays fee
   == spec_total_entry_cost σ n ndays (λ i, fee !!! i))%Q.
Proof.
  unfold total_entry_cost_of, spec_total_entry_cost.
  rewrite py_sum_bind_seq. apply big_sum_ext. intros d _.
  rewrite py_sum_bind_seq. apply big_sum_ext. intros i _.
  apply py_sum_guard.
Qed.

Lemma total_fun_of_spec σ n ndays (fun_ : list Q) :
  (total_fun_of σ n ndays fun_ == spec_total_fun σ n ndays (λ i, fun_ !!! i))%Q.
Proof. apply total_entry_cost_of_spec. Qed.

Lemma elem_of_used_arcs σ n ndays i j :
  (i, j) ∈ used_arcs σ n ndays →
  i < n ∧ j < n ∧ i ≠ j ∧ ∃ d, d < ndays ∧ arc σ i j d.
Proof.
  unfold used_arcs. intros Hin.
  apply list_elem_of_bind in Hin as (d & Hin & Hd).
  apply list_elem_of_bind in Hin as (i' & Hin & Hi).
  apply list_elem_of_bind in Hin as (j' & Hin & Hj).
  apply elem_of_seq in Hd, Hi, Hj.
  destruct (bool_decide (i' ≠ j')) eqn:Hne; simpl in Hin;
    [|by apply elem_of_nil in Hin].
  destruct (arc σ i' j' d) eqn:Harc; [|by apply elem_of_nil in Hin].
  apply list_elem_of_singleton in Hin as [= -> ->].
  apply bool_decide_eq_true in Hne.
  split_and!; [lia..|done|]. exists d. rewrite Harc. split; [lia|done].
Qed.

Lemma used_arcs_spec σ n ndays (dist : nat → nat → Q) :
  (py_sum ((λ '(i, j), dist i j) <$> used_arcs σ n ndays)
   == spec_total_distance σ n ndays dist)%Q.
Proof.
  unfold used_arcs, spec_total_distance.
  rewrite fmap_bind_list, py_sum_bind_seq. apply big_sum_ext. intros d _.
  rewrite fmap_bind_list, py_sum_bind_seq. apply big_sum_ext. intros i _.
  rewrite fmap_bind_list, py_sum_bind_seq. apply big_sum_ext. intros j _.
  destruct (bool_decide (i ≠ j) && arc σ i j d); simpl; [|reflexivity].
  rewrite py_sum_cons, py_sum_nil. ring.
Qed.

Lemma total_dist_of_Return σ n ndays (dist : Matrix) :
  ndays = 0 ∨ covers dist n →
  total_dist_of σ n ndays dist
  = Return (py_sum ((λ '(i, j), cell dist i j) <$> used_arcs σ n ndays)).
Proof.
  intros Hc. unfold total_dist_of.
  rewrite (traverse_Return _ (λ '(i, j), cell dist i j)); [done|].
  intros [i j] Hin. apply elem_of_used_arcs in Hin as (Hi & Hj & Hne & d & Hd & _).
  destruct Hc as [->|Hcov]; [lia|].
  destruct (Hcov i j Hi Hj Hne). by apply at_in_bounds.
Qed.

(** ** The pipeline, case by case *)

Lemma solve_mtsp_no_solver rq :
  solve_mtsp None rq = Raise (RuntimeError "Cannot create OR-Tools solver.").
Proof. reflexivity. Qed.

Lemma solve_mtsp_build_raises (solver : Engine) rq e :
  build_model rq = Raise e → solve_mtsp (Some solver) rq = Raise e.
Proof. intros Hb. unfold solve_mtsp. by rewrite Hb. Qed.

Lemma solve_mtsp_not_ok (solver : Engine) rq m status σ :
  build_model rq = Return m → solver m = (status, σ) →
  status_ok status = false →
  solve_mtsp (Some solver) rq = Return (replicate (days rq) [], 0, 0, 0)%Q.
Proof.
  intros Hb Hs Hst. unfold solve_mtsp. rewrite Hb. simpl.
  by rewrite Hs, Hst.
Qed.

Lemma solve_mtsp_ok (solver : Engine) rq m status σ :
  build_model rq = Return m → solver m = (status, σ) →
  status_ok status = true →
  let n := length (names_of rq) in
  let total_dist :=
    py_sum ((λ '(i, j), cell (distances rq) i j) <$> used_arcs σ n (days rq)) in
  solve_mtsp (Some solver) rq =
    Return (decode_day (λ cur, names_of rq !!! cur) n σ <$> seq 0 (days rq),
            (total_entry_cost_of σ n (days rq) (fee_of rq)
             + total_dist * travel_cost_per_km rq)%Q,
            total_fun_of σ n (days rq) (fun_of rq),
            total_dist).
Proof.
  intros Hb Hs Hst. unfold solve_mtsp. rewrite Hb. simpl.
  rewrite Hs, Hst. simpl.
  apply build_model_inv in Hb as [Hc _].
  by rewrite (total_dist_of_Return _ _ _ _ Hc).
Qed.

(** ** What a feasible assignment guarantees *)

Lemma gt_half_true v : gt_half v = true ↔ (1 # 2 < v)%Q.
Proof.
  unfold gt_half. rewrite negb_true_iff.
  destruct (Qle_bool v (1 # 2)) eqn:Hle.
  - apply Qle_bool_iff in Hle. split; [done|]. intros Hlt. lra.
  - split; [intros _|done].
    apply Qnot_le_lt. intros Hle'. apply Qle_bool_iff in Hle'. congruence.
Qed.

Lemma gt_half_one v : (v == 1)%Q → gt_half v = true.
Proof. intros Hv. apply gt_half_true. lra. Qed.

Lemma gt_half_false v : (v <= 1 # 2)%Q → gt_half v = false.
Proof.
  intros Hv. destruct (gt_half v) eqn:Hg; [|done].
  apply gt_half_true in Hg. lra.
Qed.

Lemma eval_ESum {A} σ (f : A → LinExpr) (l : list A) :
  eval σ (ESum (f <$> l)) = py_sum ((λ x, eval σ (f x)) <$> l).
Proof.
  simpl. f_equal. induction l as [|a l IH]; simpl; [done|].
  f_equal. apply IH.
Qed.

Lemma eval_EAdd σ e1 e2 : eval σ (EAdd e1 e2) = (eval σ e1 + eval σ e2)%Q.
Proof. reflexivity. Qed.

Lemma eval_EScale σ q e : eval σ (EScale q e) = (q * eval σ e)%Q.
Proof. reflexivity. Qed.

Section feasible.
Context (rq : Request) (m : Model) (σ : Assignment).
Hypothesis built : build_model rq = Return m.
Hypothesis feas : feasible m σ.

#[local] Abbreviation n := (length (names_of rq)).

Lemma feasible_constraint c : c ∈ model_constraints rq → holds σ c.
Proof.
  destruct feas as [_ Hcs]. apply build_model_inv in built as (_ & _ & Hm).
  rewrite Hm in Hcs. rewrite Forall_forall in Hcs. apply Hcs.
Qed.

Lemma feasible_x i j d :
  i < n → j < n → i ≠ j → d < days rq →
  (σ (X i j d) == 0 ∨ σ (X i j d) == 1)%Q.
Proof.
  intros Hi Hj Hne Hd.
  destruct feas as [Hdom _]. apply build_model_inv in built as (_ & Hv & _).
  rewrite Hv in Hdom. rewrite Forall_forall in Hdom.
  apply (Hdom (X i j d, BoolVar)).
  unfold declare_variables. apply elem_of_app. left.
  apply list_elem_of_fmap. exists (i, j, d). split; [done|].
  by apply elem_of_x_keys.
Qed.

Lemma feasible_y i d :
  i < n → d < days rq → (σ (Y i d) == 0 ∨ σ (Y i d) == 1)%Q.
Proof.
  intros Hi Hd.
  destruct feas as [Hdom _]. apply build_model_inv in built as (_ & Hv & _).
  rewrite Hv in Hdom. rewrite Forall_forall in Hdom.
  apply (Hdom (Y i d, BoolVar)).
  unfold declare_variables. apply elem_of_app. right. apply elem_of_app. left.
  apply list_elem_of_fmap. exists (i, d). split; [done|].
  by apply elem_of_y_keys.
Qed.

Lemma feasible_visit i d :
  i < n → d < days rq →
  (σ (Y i d) == if visit σ i d then 1 else 0)%Q.
Proof.
  intros Hi Hd. unfold visit.
  destruct (feasible_y i d Hi Hd) as [Hy|Hy].
  - rewrite gt_half_false by lra. done.
  - rewrite gt_half_one by done. done.
Qed.

Lemma feasible_arc i j d :
  i < n → j < n → i ≠ j → d < days rq →
  (σ (X i j d) == if arc σ i j d then 1 else 0)%Q.
Proof.
  intros Hi Hj Hne Hd. unfold arc.
  destruct (feasible_x i j d Hi Hj Hne Hd) as [Hx|Hx].
  - rewrite gt_half_false by lra. done.
  - rewrite gt_half_one by done. done.
Qed.

Lemma elem_of_others i j : j ∈ others n i ↔ j < n ∧ j ≠ i.
Proof.
  unfold others. rewrite list_elem_of_filter, elem_of_seq. intuition lia.
Qed.

(** The in- and out-degree sums of constraint (1) are sums of
    non-negative values. *)
Lemma in_sum_nonneg i d :
  i < n → d < days rq →
  Forall (λ x, (0 <= x)%Q) ((λ j, eval σ (EVar (X j i d))) <$> others n i).
Proof.
  intros Hi Hd. apply Forall_fmap, Forall_forall. intros j Hj.
  apply elem_of_others in Hj as [Hj Hne]. simpl.
  destruct (feasible_x j i d Hj Hi Hne Hd); lra.
Qed.

Lemma out_sum_nonneg i d :
  i < n → d < days rq →
  Forall (λ x, (0 <= x)%Q) ((λ j, eval σ (EVar (X i j d))) <$> others n i).
Proof.
  intros Hi Hd. apply Forall_fmap, Forall_forall. intros j Hj.
  apply elem_of_others in Hj as [Hj Hne]. simpl.
  destruct (feasible_x i j d Hi Hj) as [?|?]; [congruence|done|lra..].
Qed.

(** Constraint (1): a node with an incident used arc is visited. *)
Lemma feasible_degree i d :
  i < n → d < days rq →
  (py_sum ((λ j, σ (X j i d)) <$> others n i)
   + py_sum ((λ j, σ (X i j d)) <$> others n i) <= 2 * σ (Y i d))%Q.
Proof.
  intros Hi Hd.
  assert (CLe (EAdd (ESum ((λ j, EVar (X j i d)) <$> others n i))
                    (ESum ((λ j, EVar (X i j d)) <$> others n i)))
              (EScale 2 (EVar (Y i d))) ∈ model_constraints rq) as Hin.
  { unfold model_constraints. apply elem_of_app. left.
    unfold flow_constraints. apply list_elem_of_bind. exists d.
    split; [|apply elem_of_seq; lia].
    apply list_elem_of_bind. exists i. split; [|apply elem_of_seq; lia].
    apply elem_of_cons. right. by apply list_elem_of_singleton. }
  apply feasible_constraint in Hin. unfold holds in Hin.
  rewrite eval_EAdd, !eval_ESum in Hin. exact Hin.
Qed.

Lemma feasible_arcs_within d :
  d < days rq → arcs_within_assigned σ n d.
Proof.
  intros Hd i j Hi Hj Hne Harc.
  assert (σ (X i j d) == 1)%Q as Hx.
  { rewrite (feasible_arc i j d) by done. by destruct (arc σ i j d). }
  split.
  - pose proof (feasible_degree i d Hi Hd) as Hdeg.
    pose proof (py_sum_nonneg _ (in_sum_nonneg i d Hi Hd)) as Hin.
    pose proof (py_sum_member_le _ (σ (X i j d)) (out_sum_nonneg i d Hi Hd)) as Hout.
    simpl in Hin, Hout.
    assert (σ (X i j d) <= py_sum ((λ j, σ (X i j d)) <$> others n i))%Q as Hle.
    { apply Hout. apply list_elem_of_fmap. exists j. split; [done|].
      apply elem_of_others. split; [done|congruence]. }
    destruct (feasible_y i d Hi Hd) as [Hy|Hy]; [lra|].
    unfold visit. by rewrite gt_half_one.
  - pose proof (feasible_degree j d Hj Hd) as Hdeg.
    pose proof (py_sum_nonneg _ (out_sum_nonneg j d Hj Hd)) as Hout.
    pose proof (py_sum_member_le _ (σ (X i j d)) (in_sum_nonneg j d Hj Hd)) as Hin.
    simpl in Hin, Hout.
    assert (σ (X i j d) <= py_sum ((λ i, σ (X i j d)) <$> others n j))%Q as Hle.
    { apply Hin. apply list_elem_of_fmap. exists i. split; [done|].
      apply elem_of_others. split; done. }
    destruct (feasible_y j d Hj Hd) as [Hy|Hy]; [lra|].
    unfold visit. by rewrite gt_half_one.
Qed.

(** Constraint (4): the fees of the assigned attractions fit the budget. *)
Lemma feasible_budget_raw d :
  d < days rq →
  (py_sum ((λ i, fee_of rq !!! i * σ (Y i d)) <$> seq 0 n) <= budget_day rq)%Q.
Proof.
  intros Hd.
  assert (CLe (ESum ((λ i, EScale (fee_of rq !!! i) (EVar (Y i d))) <$> seq 0 n))
              (EConst (budget_day rq)) ∈ model_constraints rq) as Hin.
  { unfold model_constraints.
    apply elem_of_app. right. apply elem_of_app. right.
    apply elem_of_app. right. apply elem_of_app. left.
    unfold budget_constraints. apply list_elem_of_bind. exists d.
    split; [|apply elem_of_seq; lia]. by apply list_elem_of_singleton. }
  apply feasible_constraint in Hin. unfold holds in Hin.
  rewrite eval_ESum in Hin. exact Hin.
Qed.

Lemma assigned_sum (f : nat → Q) d (l : list nat) :
  d < days rq → Forall (λ i, i < n) l →
  (py_sum (f <$> filter (λ i, visit σ i d) l)
   == py_sum ((λ i, f i * σ (Y i d)) <$> l))%Q.
Proof.
  intros Hd. induction 1 as [|i l Hi _ IH]; [reflexivity|].
  rewrite filter_cons, fmap_cons, py_sum_cons, <-IH.
  rewrite (feasible_visit i d Hi Hd).
  destruct (visit σ i d).
  - rewrite decide_True by done. rewrite fmap_cons, py_sum_cons. ring.
  - rewrite decide_False by (by intros []). ring.
Qed.

Lemma feasible_budget d :
  d < days rq →
  (py_sum ((λ i, fee_of rq !!! i) <$> day_indices n σ d) <= budget_day rq)%Q.
Proof.
  intros Hd.
  rewrite (py_sum_perm _ ((λ i, fee_of rq !!! i) <$> assigned_of σ n d)).
  2:{ apply fmap_Permutation, day_indices_perm. by apply feasible_arcs_within. }
  unfold assigned_of. rewrite assigned_sum.
  - by apply feasible_budget_raw.
  - done.
  - apply Forall_forall. intros i Hi. apply elem_of_seq in Hi. lia.
Qed.

(** Constraint (2): no attraction is assigned to two days. *)
Lemma two_members_le (f : nat → Q) (l : list nat) a b :
  Forall (λ x, (0 <= f x)%Q) l → a ∈ l → b ∈ l → a ≠ b →
  (f a + f b <= py_sum (f <$> l))%Q.
Proof.
  intros Hnn. induction Hnn as [|x l Hx Hl IH]; intros Ha Hb Hne.
  { by apply elem_of_nil in Ha. }
  rewrite fmap_cons, py_sum_cons.
  assert (Forall (λ y, (0 <= y)%Q) (f <$> l)) as Hl'
    by (by apply Forall_fmap).
  apply elem_of_cons in Ha as [->|Ha]; apply elem_of_cons in Hb as [->|Hb].
  - done.
  - pose proof (py_sum_member_le _ (f b) Hl' (list_elem_of_fmap_2 f _ _ Hb)). lra.
  - pose proof (py_sum_member_le _ (f a) Hl' (list_elem_of_fmap_2 f _ _ Ha)). lra.
  - specialize (IH Ha Hb Hne). lra.
Qed.

Lemma feasible_once : once_across_days σ n (days rq).
Proof.
  intros i d1 d2 Hi Hd1 Hd2 Hv1 Hv2.
  destruct (decide (d1 = d2)) as [|Hne]; [done|exfalso].
  assert (CLe (ESum ((λ d, EVar (Y i d)) <$> seq 0 (days rq))) (EConst 1)
          ∈ model_constraints rq) as Hin.
  { unfold model_constraints. apply elem_of_app. right. apply elem_of_app. left.
    unfold once_constraints. apply list_elem_of_bind. exists i.
    split; [|apply elem_of_seq; lia]. by apply list_elem_of_singleton. }
  apply feasible_constraint in Hin. unfold holds in Hin.
  rewrite eval_ESum in Hin. simpl in Hin.
  assert (σ (Y i d1) + σ (Y i d2)
          <= py_sum ((λ d, σ (Y i d)) <$> seq 0 (days rq)))%Q as H2.
  { apply (two_members_le (λ d, σ (Y i d))); [|apply elem_of_seq; lia..|done].
    apply Forall_forall. intros d Hd. apply elem_of_seq in Hd.
    destruct (feasible_y i d Hi) as [?|?]; [lia|lra..]. }
  assert (σ (Y i d1) == 1)%Q as E1.
  { rewrite (feasible_visit i d1) by done. by destruct (visit σ i d1). }
  assert (σ (Y i d2) == 1)%Q as E2.
  { rewrite (feasible_visit i d2) by done. by destruct (visit σ i d2). }
  lra.
Qed.
End feasible.

(** ** Decoding depends on the materialized assignment only *)

Lemma filter_ext_on {A} (P Q : A → Prop) `{∀ x, Decision (P x)}
    `{∀ x, Decision (Q x)} (l : list A) :
  (∀ x, x ∈ l → P x ↔ Q x) → filter P l = filter Q l.
Proof.
  induction l as [|a l IH]; intros Hext; [done|].
  rewrite !filter_cons, IH by (intros; apply Hext; by right).
  pose proof (Hext a (list_elem_of_here _ _)) as Ha.
  destruct (decide (P a)), (decide (Q a)); done || tauto.
Qed.

Lemma decode_day_ext {A} (label : nat → A) n σ1 σ2 d :
  (∀ i, i < n → visit σ1 i d = visit σ2 i d) →
  (∀ i j, i < n → j < n → i ≠ j → arc σ1 i j d = arc σ2 i j d) →
  decode_day label n σ1 d = decode_day label n σ2 d.
Proof.
  intros Hv Ha. unfold decode_day, day_routes.
  assert (assigned_of σ1 n d = assigned_of σ2 n d) as ->.
  { apply filter_ext_on. intros i Hi. apply elem_of_seq in Hi.
    rewrite Hv by lia. done. }
  assert (succ_of (adj_of_day σ1 n d) = succ_of (adj_of_day σ2 n d)) as ->; [|done].
  apply map_eq. intros i. rewrite !succ_of_lookup.
  destruct (decide (i < n)) as [Hi|]; [|done].
  f_equal. apply filter_ext_on. intros j Hj. apply elem_of_seq in Hj.
  split; intros [Hne Harc]; (split; [done|]).
  - rewrite <-Ha by (lia || congruence). done.
  - rewrite Ha by (lia || congruence). done.
Qed.

(** * The claims *)

Lemma status_ok_true s : status_ok s = true ↔ s = OPTIMAL ∨ s = FEASIBLE.
Proof. destruct s; simpl; intuition congruence. Qed.

Lemma itinerary_lookup {A} (label : nat → A) n σ ndays d :
  d < ndays →
  (decode_day label n σ <$> seq 0 ndays) !! d = Some (decode_day label n σ d).
Proof. intros Hd. by rewrite list_lookup_fmap, lookup_seq_lt. Qed.

Lemma itinerary_lookup_inv {A} (label : nat → A) n σ ndays d l :
  (decode_day label n σ <$> seq 0 ndays) !! d = Some l →
  d < ndays ∧ l = decode_day label n σ d.
Proof.
  rewrite list_lookup_fmap. intros Hl.
  destruct (seq 0 ndays !! d) as [d'|] eqn:Hd; [|done].
  apply lookup_seq in Hd as [-> ?]. simpl in Hl. by injection Hl as <-.
Qed.

(** The names decoded for a day are distinct when the names are. *)
Lemma decode_day_NoDup (names : list string) σ d :
  NoDup names →
  NoDup (decode_day (λ cur, names !!! cur) (length names) σ d).
Proof.
  intros Hnd. rewrite decode_day_indices.
  apply NoDup_fmap_inj_on; [|apply day_indices_NoDup].
  intros i j Hi Hj. apply names_inj; [done|by eapply day_indices_lt..].
Qed.

(** C2: whenever the status is neither OPTIMAL nor FEASIBLE, [solve_mtsp]
    returns (it does not raise) an itinerary of [days] empty lists and the
    totals 0, 0, 0. *)
Theorem C2_soft_failure (solver : Engine) (rq : Request) (m : Model)
    (status : Status) (σ : Assignment) :
  build_model rq = Return m →
  solver m = (status, σ) →
  status ≠ OPTIMAL → status ≠ FEASIBLE →
  solve_mtsp (Some solver) rq = Return (replicate (days rq) [], 0, 0, 0)%Q.
Proof.
  intros Hb Hs Hn1 Hn2. eapply solve_mtsp_not_ok; [done..|].
  by destruct status.
Qed.

(** C10: on a day where every used arc joins two assigned attractions, and
    with unique names, the decoded list holds exactly the names of the
    assigned attractions, each once. *)
Theorem C10_decoded_is_assigned (names : list string) (σ : Assignment) (d : nat) :
  NoDup names →
  arcs_within_assigned σ (length names) d →
  decode_day (λ cur, names !!! cur) (length names) σ d
    ≡ₚ (λ i, names !!! i) <$> assigned_of σ (length names) d
  ∧ NoDup (decode_day (λ cur, names !!! cur) (length names) σ d).
Proof.
  intros Hnd Hwithin. split; [|by apply decode_day_NoDup].
  rewrite decode_day_indices. by apply fmap_Permutation, day_indices_perm.
Qed.

(** C1: whenever the engine has answered, with a status of success or
    not, the itinerary has [days] entries.  With unique names every entry is
    duplicate-free; and when the assignment returned with [OPTIMAL] or
    [FEASIBLE] satisfies the constraints of the model, the
    at-most-once-across-days constraint among them, no name is in two
    entries. *)
Theorem C1_itinerary_shape (solver : Engine) (rq : Request) (m : Model)
    (status : Status) (σ : Assignment) :
  build_model rq = Return m →
  solver m = (status, σ) →
  ∃ itinerary total_cost total_fun total_dist,
    solve_mtsp (Some solver) rq
      = Return (itinerary, total_cost, total_fun, total_dist)
    ∧ length itinerary = days rq
    ∧ (NoDup (names_of rq) →
       Forall NoDup itinerary
       ∧ ((status = OPTIMAL ∨ status = FEASIBLE → feasible m σ) →
          ∀ d1 d2 l1 l2 nm,
            itinerary !! d1 = Some l1 → itinerary !! d2 = Some l2 →
            nm ∈ l1 → nm ∈ l2 → d1 = d2)).
Proof.
  intros Hb Hs.
  destruct (status_ok status) eqn:Hst.
  - pose proof (solve_mtsp_ok solver rq m status σ Hb Hs Hst) as Hsolve.
    simpl in Hsolve. do 4 eexists. split; [exact Hsolve|]. split.
    { by rewrite length_fmap, length_seq. }
    intros Hnd. split.
    { apply Forall_fmap, Forall_forall. intros d _. by apply decode_day_NoDup. }
    intros Hfeas d1 d2 l1 l2 nm H1 H2 Hn1 Hn2.
    apply status_ok_true in Hst. specialize (Hfeas Hst).
    pose proof (feasible_once rq m σ Hb Hfeas) as Honce.
    pose proof (feasible_arcs_within rq m σ Hb Hfeas) as Hwithin.
    apply itinerary_lookup_inv in H1 as [Hd1 ->].
    apply itinerary_lookup_inv in H2 as [Hd2 ->].
    rewrite decode_day_indices in Hn1, Hn2.
    apply list_elem_of_fmap in Hn1 as (i1 & -> & Hi1).
    apply list_elem_of_fmap in Hn2 as (i2 & Heq & Hi2).
    pose proof (day_indices_lt _ _ _ _ Hi1) as Hlt1.
    pose proof (day_indices_lt _ _ _ _ Hi2) as Hlt2.
    apply names_inj in Heq; [|done..]. subst i2.
    apply day_indices_within, assigned_of_elem in Hi1 as [_ Hv1]; [|by apply Hwithin].
    apply day_indices_within, assigned_of_elem in Hi2 as [_ Hv2]; [|by apply Hwithin].
    by eapply Honce.
  - rewrite (solve_mtsp_not_ok solver rq m status σ Hb Hs Hst).
    do 4 eexists. split; [done|]. split.
    { by rewrite length_replicate. }
    intros _. split.
    { apply Forall_replicate. constructor. }
    intros _ d1 d2 l1 l2 nm H1 _ Hn1 _.
    apply lookup_replicate in H1 as [-> _]. by apply elem_of_nil in Hn1.
Qed.

(** C3: the decoder collects the assigned indices, takes as successor of a
    node the head of a used arc (none when no arc leaves it), and from every
    assigned index not yet consumed walks the successors, consuming each
    node, until a node without successor or a consumed node; the day's list
    is the chains one after the other.  The walk always ends: it consumes a
    node at most once, so at most [n] names are produced. *)
Theorem C3_decoder_walk (names : list string) (n : nat) (σ : Assignment) (d : nat) :
  let succ := succ_of (adj_of_day σ n d) in
  let label := λ cur, names !!! cur in
  (∀ i d, visit σ i d = true ↔ (1 # 2 < σ (Y i d))%Q)
  ∧ (∀ i j d, arc σ i j d = true ↔ (1 # 2 < σ (X i j d))%Q)
  ∧ (∀ i, i ∈ assigned_of σ n d ↔ i < n ∧ visit σ i d)
  ∧ (∀ i j, succ !! i = Some j → i < n ∧ j < n ∧ i ≠ j ∧ arc σ i j d)
  ∧ (∀ i j, i < n → succ !! i = None → j < n → j ≠ i → arc σ i j d = false)
  ∧ ∃ chains : list (list nat),
      spec_chains (λ i, succ !! i) ∅ (assigned_of σ n d) chains
        (list_to_set (concat chains))
      ∧ decode_day label n σ d = concat (fmap (M:=list) label <$> chains)
      ∧ length (decode_day label n σ d) ≤ n.
Proof.
  intros succ label. split_and!.
  - intros i d'. apply gt_half_true.
  - intros i j d'. apply gt_half_true.
  - apply assigned_of_elem.
  - apply succ_of_Some.
  - intros i j. apply succ_of_None.
  - destruct (decode_day_chains label n σ d) as (chains & Hcs & Hroutes & Hflat).
    exists chains. split_and!; [done| |].
    + unfold decode_day. by rewrite Hroutes.
    + rewrite decode_day_indices, length_fmap. apply day_indices_length.
Qed.

(** C4: on success the totals are the sums over the materialized
    assignment: fun and entry fees over the visited [(i, d)], distance over
    the used arcs [(i, j, d)] with [i ≠ j], and
    cost = entry fees + distance × travel cost per km. *)
Theorem C4_totals (solver : Engine) (rq : Request) (m : Model)
    (status : Status) (σ : Assignment) :
  build_model rq = Return m →
  solver m = (status, σ) →
  status = OPTIMAL ∨ status = FEASIBLE →
  ∃ itinerary total_cost total_fun total_dist,
    solve_mtsp (Some solver) rq
      = Return (itinerary, total_cost, total_fun, total_dist)
    ∧ (total_fun == spec_total_fun σ (length (names_of rq)) (days rq)
                      (λ i, fun_of rq !!! i))%Q
    ∧ (total_dist == spec_total_distance σ (length (names_of rq)) (days rq)
                       (cell (distances rq)))%Q
    ∧ (total_cost ==
         spec_total_entry_cost σ (length (names_of rq)) (days rq)
           (λ i, fee_of rq !!! i)
         + spec_total_distance σ (length (names_of rq)) (days rq)
             (cell (distances rq)) * travel_cost_per_km rq)%Q.
Proof.
  intros Hb Hs Hst. apply status_ok_true in Hst.
  pose proof (solve_mtsp_ok solver rq m status σ Hb Hs Hst) as Hsolve.
  simpl in Hsolve. do 4 eexists. split; [exact Hsolve|].
  split_and!.
  - apply total_fun_of_spec.
  - apply used_arcs_spec.
  - rewrite total_entry_cost_of_spec, used_arcs_spec. reflexivity.
Qed.

(** C6: the decoded itinerary depends on the raw values only through their
    [> 0.5] materialization, so equal materializations decode to the same
    itinerary; a raw value equal to 0.5 is false, for [visit] and for
    [arc]. *)
Theorem C6_decoding_deterministic {A : Type} (label : nat → A) (n ndays : nat)
    (σ1 σ2 : Assignment) :
  (∀ i d, i < n → d < ndays → visit σ1 i d = visit σ2 i d) →
  (∀ i j d, i < n → j < n → i ≠ j → d < ndays → arc σ1 i j d = arc σ2 i j d) →
  decode_day label n σ1 <$> seq 0 ndays = decode_day label n σ2 <$> seq 0 ndays
  ∧ (∀ i d, (σ1 (Y i d) == 1 # 2)%Q → visit σ1 i d = false)
  ∧ (∀ i j d, (σ1 (X i j d) == 1 # 2)%Q → arc σ1 i j d = false).
Proof.
  intros Hv Ha. split_and!.
  - apply list_fmap_ext. intros k d Hd. apply lookup_seq in Hd as [-> Hd].
    apply decode_day_ext; intros; [apply Hv|apply Ha]; done.
  - intros i d Hhalf. apply gt_half_false. lra.
  - intros i j d Hhalf. apply gt_half_false. lra.
Qed.

(** C8: on success with an assignment that satisfies the model, the entry
    fees of the attractions decoded for a day sum to at most the daily
    budget. *)
Theorem C8_daily_budget (solver : Engine) (rq : Request) (m : Model)
    (status : Status) (σ : Assignment) :
  build_model rq = Return m →
  solver m = (status, σ) →
  status = OPTIMAL ∨ status = FEASIBLE →
  feasible m σ →
  ∃ itinerary total_cost total_fun total_dist,
    solve_mtsp (Some solver) rq
      = Return (itinerary, total_cost, total_fun, total_dist)
    ∧ ∀ d, d < days rq →
        itinerary !! d
          = Some ((λ i, names_of rq !!! i)
                    <$> day_indices (length (names_of rq)) σ d)
        ∧ (py_sum ((λ i, fee_of rq !!! i)
                     <$> day_indices (length (names_of rq)) σ d)
           <= budget_day rq)%Q.
Proof.
  intros Hb Hs Hst Hfeas. apply status_ok_true in Hst.
  pose proof (solve_mtsp_ok solver rq m status σ Hb Hs Hst) as Hsolve.
  simpl in Hsolve. do 4 eexists. split; [exact Hsolve|].
  intros d Hd. split.
  - rewrite itinerary_lookup by done. by rewrite decode_day_indices.
  - by eapply feasible_budget.
Qed.

(** C9: travel time is distance divided by the average speed when the speed
    is positive and the distance itself when the speed is zero; the weighted
    fun score is the fun score times the weight of the category, 1 for a
    category without weight, when weights are given. *)
Theorem C9_derived_quantities (rq : Request) :
  ((0 < avg_speed_kmph rq)%Q →
     shape_rows (travel_time_of rq) = shape_rows (distances rq)
     ∧ shape_cols (travel_time_of rq) = shape_cols (distances rq)
     ∧ ∀ i j, cell (travel_time_of rq) i j
              = (cell (distances rq) i j / avg_speed_kmph rq)%Q)
  ∧ ((avg_speed_kmph rq == 0)%Q → travel_time_of rq = distances rq)
  ∧ (∀ w, weights rq = Some w → has_category (attractions rq) = true →
       length (fun_of rq) = length (rows (attractions rq))
       ∧ ∀ i a, rows (attractions rq) !! i = Some a →
           fun_of rq !! i
             = Some (fun_score a * default 1 (w !! category a))%Q).
Proof.
  split_and!.
  - intros Hpos. unfold travel_time_of, falsy.
    destruct (Qeq_bool _ 0) eqn:Hz.
    { apply Qeq_bool_iff in Hz. lra. }
    done.
  - intros Hz. unfold travel_time_of, falsy.
    apply Qeq_bool_iff in Hz. by rewrite Hz.
  - intros w Hw Hcat. unfold fun_of. rewrite Hw, Hcat. split.
    + by rewrite length_fmap.
    + intros i a Hi. by rewrite list_lookup_fmap, Hi.
Qed.

(** ** Routes and totals *)

Lemma bind_guard_filter {A} (b : nat → bool) (f : nat → A) (l : list nat) :
  (l ≫= λ i, if b i then [f i] else []) = f <$> filter (λ i, b i) l.
Proof.
  induction l as [|i l IH]; [done|].
  rewrite bind_cons, filter_cons, IH.
  destruct (b i); [by rewrite decide_True|by rewrite decide_False by (by intros [])].
Qed.

Lemma total_fun_of_routes σ n ndays (fun_ : list Q) :
  (∀ d, d < ndays → arcs_within_assigned σ n d) →
  (total_fun_of σ n ndays fun_
   == big_sum ndays (λ d, py_sum ((λ i, fun_ !!! i) <$> day_indices n σ d)))%Q.
Proof.
  intros Hwithin. unfold total_fun_of.
  rewrite py_sum_bind_seq. apply big_sum_ext. intros d Hd.
  rewrite (bind_guard_filter (λ i, visit σ i d) (λ i, fun_ !!! i)).
  apply py_sum_perm, fmap_Permutation. symmetry.
  by apply day_indices_perm, Hwithin.
Qed.

Lemma spec_chains_consecutive succ v starts chains v' chain k a b :
  spec_chains succ v starts chains v' → chain ∈ chains →
  chain !! k = Some a → chain !! S k = Some b → succ a = Some b.
Proof.
  induction 1 as [v|v s starts chains v' Hin _ IH
                 |v s starts c v1 chains v' Hnot Hch _ IH];
    intros Hc Ha Hb.
  - by apply elem_of_nil in Hc.
  - by apply IH.
  - apply elem_of_cons in Hc as [->|Hc]; [|by apply IH].
    by eapply spec_chain_consecutive.
Qed.

(** Inside one chain of a day, consecutive indices are joined by a used arc. *)
Lemma day_routes_consecutive n σ d chain k a b :
  chain ∈ day_routes id n σ d →
  chain !! k = Some a → chain !! S k = Some b →
  a ≠ b ∧ arc σ a b d.
Proof.
  destruct (decode_day_chains id n σ d) as (chains & Hcs & -> & _).
  intros Hc Ha Hb.
  apply list_elem_of_fmap in Hc as (c & -> & Hc).
  rewrite list_fmap_id in Ha, Hb.
  pose proof (spec_chains_consecutive _ _ _ _ _ _ _ _ _ Hcs Hc Ha Hb) as Hsucc.
  apply succ_of_Some in Hsucc as (_ & _ & Hne & Harc). done.
Qed.

(** C5, as amended: on success, with used arcs that join attractions
    assigned to the day, the total fun is the sum of the weighted fun over
    the attractions decoded for the days; the total distance is the sum of
    the distances over the used arcs, and inside one walked chain every
    consecutive pair is such an arc. *)
Theorem C5_totals_and_routes (solver : Engine) (rq : Request) (m : Model)
    (status : Status) (σ : Assignment) :
  build_model rq = Return m →
  solver m = (status, σ) →
  status = OPTIMAL ∨ status = FEASIBLE →
  (∀ d, d < days rq → arcs_within_assigned σ (length (names_of rq)) d) →
  ∃ itinerary total_cost total_fun total_dist,
    solve_mtsp (Some solver) rq
      = Return (itinerary, total_cost, total_fun, total_dist)
    ∧ itinerary
        = (λ d, (λ i, names_of rq !!! i)
                  <$> concat (day_routes id (length (names_of rq)) σ d))
            <$> seq 0 (days rq)
    ∧ (total_fun ==
         big_sum (days rq) (λ d,
           py_sum ((λ i, fun_of rq !!! i)
                     <$> concat (day_routes id (length (names_of rq)) σ d))))%Q
    ∧ (total_dist == spec_total_distance σ (length (names_of rq)) (days rq)
                       (cell (distances rq)))%Q
    ∧ ∀ d chain k a b,
        chain ∈ day_routes id (length (names_of rq)) σ d →
        chain !! k = Some a → chain !! S k = Some b →
        a ≠ b ∧ arc σ a b d.
Proof.
  intros Hb Hs Hst Hwithin. apply status_ok_true in Hst.
  pose proof (solve_mtsp_ok solver rq m status σ Hb Hs Hst) as Hsolve.
  simpl in Hsolve. do 4 eexists. split; [exact Hsolve|].
  split_and!.
  - apply list_fmap_ext. intros k d _. apply decode_day_indices.
  - by apply total_fun_of_routes.
  - apply used_arcs_spec.
  - intros d chain k a b. apply day_routes_consecutive.
Qed.

(** C7, as amended: [solve_mtsp] checks none of the preconditions.  It
    raises its configuration error if and only if the engine cannot be
    constructed; with an engine, a time limit whose milliseconds fit a
    signed 64-bit integer, and a distance matrix with at least as many rows
    and columns as there are attractions (or no day at all), it returns a
    result whatever [days], the budget, the time and the speed are. *)
Theorem C7_no_validation (rq : Request) :
  (∀ CreateSolver : option Engine,
     (∃ msg, solve_mtsp CreateSolver rq = Raise (RuntimeError msg))
     ↔ CreateSolver = None)
  ∧ solve_mtsp None rq = Raise (RuntimeError "Cannot create OR-Tools solver.")
  ∧ ∀ solver : Engine,
      fits_int64 (py_int (time_limit_seconds rq * 1000)) →
      days rq = 0
      ∨ (length (names_of rq) ≤ shape_rows (distances rq)
         ∧ length (names_of rq) ≤ shape_cols (distances rq)) →
      ∃ r, solve_mtsp (Some solver) rq = Return r.
Proof.
  split_and!; [|reflexivity|].
  - intros [solver|]; split; [|done|done|by eexists].
    intros [msg Hraise]. exfalso.
    destruct (build_model rq) as [m|e] eqn:Hb.
    + destruct (solver m) as [status σ] eqn:Hs.
      destruct (status_ok status) eqn:Hst.
      * by rewrite (solve_mtsp_ok solver rq m status σ Hb Hs Hst) in Hraise.
      * by rewrite (solve_mtsp_not_ok solver rq m status σ Hb Hs Hst) in Hraise.
    + rewrite (solve_mtsp_build_raises solver rq e Hb) in Hraise.
      injection Hraise as ->.
      by destruct (build_model_Raise rq _ Hb) as [[_ ?]|[_ ?]].
  - intros solver Hfits Hdims.
    destruct (build_model_Return rq Hfits) as (m & Hb & _).
    { destruct Hdims as [?|[Hr Hc]]; [by left|right].
      intros i j Hi Hj _. lia. }
    destruct (solver m) as [status σ] eqn:Hs.
    destruct (status_ok status) eqn:Hst.
    + eexists. by eapply solve_mtsp_ok.
    + eexists. by eapply solve_mtsp_not_ok.
Qed.

(** * The claims on the worked request *)

Ltac bounded_cases :=
  repeat match goal with
  | H : ?i < _ |- _ =>
      is_var i; destruct i as [|i]; [clear H|apply Nat.succ_lt_mono in H]
  | H : _ < 0 |- _ => by apply Nat.nlt_0_r in H
  end.

(** A closed loop is walked once around and then left. *)
Example decode_cycle :
  decode_day (λ cur, ["A"; "B"; "C"; "D"] !!! cur) 4 Demo.σ_cycle 0 = ["A"; "B"].
Proof. vm_compute. reflexivity. Qed.

(** The two chains of the worked request, and their flat list. *)
Example decode_two_chains :
  day_routes id 4 Demo.σ_two_chains 0 = [[0; 1]; [2; 3]]
  ∧ decode_day (λ cur, ["A"; "B"; "C"; "D"] !!! cur) 4 Demo.σ_two_chains 0
    = ["A"; "B"; "C"; "D"].
Proof. split; vm_compute; reflexivity. Qed.

Lemma demo_names : names_of Demo.rq = ["A"; "B"; "C"; "D"].
Proof. reflexivity. Qed.

Lemma demo_names_NoDup : NoDup (names_of Demo.rq).
Proof. rewrite demo_names. repeat constructor; set_solver. Qed.

Lemma demo_feasible : feasible Demo.model Demo.σ_two_chains.
Proof.
  split.
  - repeat (apply Forall_cons; split;
      [first [ left; reflexivity | right; reflexivity
             | split; [eexists; reflexivity | split; discriminate] ] |]).
    apply Forall_nil_2.
  - repeat (apply Forall_cons; split; [discriminate|]).
    apply Forall_nil_2.
Qed.

Lemma demo_within d : d < 2 → arcs_within_assigned Demo.σ_two_chains 4 d.
Proof.
  intros Hd i j Hi Hj Hne. bounded_cases; try done; vm_compute; tauto.
Qed.

Lemma demo_once : once_across_days Demo.σ_two_chains 4 2.
Proof.
  intros i d1 d2 Hi Hd1 Hd2. bounded_cases; try done; vm_compute; tauto.
Qed.

Lemma C1_witness :
  ∃ itinerary total_cost total_fun total_dist,
    solve_mtsp (Some Demo.engine_two_chains) Demo.rq
      = Return (itinerary, total_cost, total_fun, total_dist)
    ∧ length itinerary = 2
    ∧ Forall NoDup itinerary
    ∧ ∀ d1 d2 l1 l2 nm,
        itinerary !! d1 = Some l1 → itinerary !! d2 = Some l2 →
        nm ∈ l1 → nm ∈ l2 → d1 = d2.
Proof.
  destruct (C1_itinerary_shape Demo.engine_two_chains Demo.rq Demo.model
              OPTIMAL Demo.σ_two_chains)
    as (it & c & f & k & Hsolve & Hlen & Hshape).
  - vm_compute. reflexivity.
  - reflexivity.
  - destruct (Hshape demo_names_NoDup) as [Hnd Hdisjoint].
    exists it, c, f, k. split_and!; [done..|].
    apply Hdisjoint. intros _. exact demo_feasible.
Defined.

Lemma C2_witness :
  solve_mtsp (Some Demo.engine_infeasible) Demo.rq_no_budget
    = Return (replicate 2 [], 0, 0, 0)%Q.
Proof.
  eapply (C2_soft_failure Demo.engine_infeasible Demo.rq_no_budget).
  - vm_compute. reflexivity.
  - reflexivity.
  - discriminate.
  - discriminate.
Defined.

Lemma C4_witness :
  ∃ itinerary total_cost total_fun total_dist,
    solve_mtsp (Some Demo.engine_two_chains) Demo.rq
      = Return (itinerary, total_cost, total_fun, total_dist)
    ∧ (total_fun == spec_total_fun Demo.σ_two_chains 4 2
                      (λ i, fun_of Demo.rq !!! i))%Q
    ∧ (total_dist == spec_total_distance Demo.σ_two_chains 4 2
                       (cell Demo.dist4))%Q
    ∧ (total_cost ==
         spec_total_entry_cost Demo.σ_two_chains 4 2 (λ i, fee_of Demo.rq !!! i)
         + spec_total_distance Demo.σ_two_chains 4 2 (cell Demo.dist4) * 20)%Q.
Proof.
  apply (C4_totals Demo.engine_two_chains Demo.rq Demo.model OPTIMAL
           Demo.σ_two_chains).
  - vm_compute. reflexivity.
  - reflexivity.
  - left. reflexivity.
Defined.

Lemma C5_witness :
  ∃ itinerary total_cost total_fun total_dist,
    solve_mtsp (Some Demo.engine_two_chains) Demo.rq
      = Return (itinerary, total_cost, total_fun, total_dist)
    ∧ itinerary
        = (λ d, (λ i, names_of Demo.rq !!! i)
                  <$> concat (day_routes id 4 Demo.σ_two_chains d))
            <$> seq 0 2
    ∧ (total_fun ==
         big_sum 2 (λ d,
           py_sum ((λ i, fun_of Demo.rq !!! i)
                     <$> concat (day_routes id 4 Demo.σ_two_chains d))))%Q
    ∧ (total_dist == spec_total_distance Demo.σ_two_chains 4 2
                       (cell Demo.dist4))%Q
    ∧ ∀ d chain k a b,
        chain ∈ day_routes id 4 Demo.σ_two_chains d →
        chain !! k = Some a → chain !! S k = Some b →
        a ≠ b ∧ arc Demo.σ_two_chains a b d.
Proof.
  apply (C5_totals_and_routes Demo.engine_two_chains Demo.rq Demo.model OPTIMAL
           Demo.σ_two_chains).
  - vm_compute. reflexivity.
  - reflexivity.
  - left. reflexivity.
  - exact demo_within.
Defined.

Lemma C6_witness :
  decode_day (λ cur, names_of Demo.rq !!! cur) 4 Demo.σ_two_chains <$> seq 0 2
    = decode_day (λ cur, names_of Demo.rq !!! cur) 4 Demo.σ_fractional <$> seq 0 2
  ∧ (∀ i d, (Demo.σ_two_chains (Y i d) == 1 # 2)%Q →
       visit Demo.σ_two_chains i d = false)
  ∧ (∀ i j d, (Demo.σ_two_chains (X i j d) == 1 # 2)%Q →
       arc Demo.σ_two_chains i j d = false).
Proof.
  apply (C6_decoding_deterministic (λ cur, names_of Demo.rq !!! cur) 4 2
           Demo.σ_two_chains Demo.σ_fractional).
  - intros i d Hi Hd. bounded_cases; reflexivity.
  - intros i j d Hi Hj _ Hd. bounded_cases; reflexivity.
Defined.

Lemma C7_witness :
  ((∃ msg, solve_mtsp (Some Demo.engine_infeasible) Demo.rq_no_budget
             = Raise (RuntimeError msg))
   ↔ Some Demo.engine_infeasible = None)
  ∧ solve_mtsp None Demo.rq_no_budget
    = Raise (RuntimeError "Cannot create OR-Tools solver.")
  ∧ ∃ r, solve_mtsp (Some Demo.engine_infeasible) Demo.rq_no_budget = Return r.
Proof.
  destruct (C7_no_validation Demo.rq_no_budget) as (Hiff & Hnone & Hsome).
  split_and!; [apply Hiff|exact Hnone|].
  apply (Hsome Demo.engine_infeasible).
  - vm_compute. split; [discriminate|reflexivity].
  - right. split; vm_compute; lia.
Defined.

Lemma C8_witness :
  ∃ itinerary total_cost total_fun total_dist,
    solve_mtsp (Some Demo.engine_two_chains) Demo.rq
      = Return (itinerary, total_cost, total_fun, total_dist)
    ∧ ∀ d, d < 2 →
        itinerary !! d
          = Some ((λ i, names_of Demo.rq !!! i)
                    <$> day_indices 4 Demo.σ_two_chains d)
        ∧ (py_sum ((λ i, fee_of Demo.rq !!! i)
                     <$> day_indices 4 Demo.σ_two_chains d)
           <= 100)%Q.
Proof.
  apply (C8_daily_budget Demo.engine_two_chains Demo.rq Demo.model OPTIMAL
           Demo.σ_two_chains).
  - vm_compute. reflexivity.
  - reflexivity.
  - left. reflexivity.
  - exact demo_feasible.
Defined.

Lemma C9_witness :
  (∀ i j, cell (travel_time_of Demo.rq) i j = (cell Demo.dist4 i j / 20)%Q)
  ∧ travel_time_of Demo.rq_no_speed = Demo.dist4
  ∧ fun_of Demo.rq !! 0 = Some (5 * (1 # 2))%Q
  ∧ fun_of Demo.rq !! 1 = Some (6 * 1)%Q.
Proof.
  destruct (C9_derived_quantities Demo.rq) as (Hspeed & _ & Hfun).
  destruct (C9_derived_quantities Demo.rq_no_speed) as (_ & Hzero & _).
  destruct Hspeed as (_ & _ & Hcell); [reflexivity|].
  destruct (Hfun _ eq_refl eq_refl) as [_ Hw].
  split_and!.
  - exact Hcell.
  - apply Hzero. reflexivity.
  - exact (Hw 0 _ eq_refl).
  - exact (Hw 1 _ eq_refl).
Defined.

Lemma C10_witness :
  decode_day (λ cur, ["A"; "B"; "C"; "D"] !!! cur) 4 Demo.σ_two_chains 0
    ≡ₚ (λ i, ["A"; "B"; "C"; "D"] !!! i) <$> assigned_of Demo.σ_two_chains 4 0
  ∧ NoDup (decode_day (λ cur, ["A"; "B"; "C"; "D"] !!! cur) 4 Demo.σ_two_chains 0).
Proof.
  apply (C10_decoded_is_assigned ["A"; "B"; "C"; "D"] Demo.σ_two_chains 0).
  - exact demo_names_NoDup.
  - apply demo_within. lia.
Defined.

(** * Where the code departs from the claims *)

(** C5 as stated fails: with the two chains 0 → 1 and 2 → 3 on one day the
    itinerary lists A, B, C, D; the returned distance is
    [dist[0][1] + dist[2][3] = 20], while the consecutive pairs of the list
    add up to 30. *)
Lemma C5_counterexample :
  ¬ (∀ (solver : Engine) (rq : Request) (m : Model) (status : Status)
       (σ : Assignment),
       build_model rq = Return m →
       solver m = (status, σ) →
       status = OPTIMAL ∨ status = FEASIBLE →
       feasible m σ →
       ∃ itinerary total_cost total_fun total_dist,
         solve_mtsp (Some solver) rq
           = Return (itinerary, total_cost, total_fun, total_dist)
         ∧ (total_fun ==
              big_sum (days rq) (λ d,
                py_sum ((λ i, fun_of rq !!! i)
                          <$> day_indices (length (names_of rq)) σ d)))%Q
         ∧ (total_dist ==
              big_sum (days rq) (λ d,
                route_length (cell (distances rq))
                  (day_indices (length (names_of rq)) σ d)))%Q).
Proof.
  intros Hclaim.
  destruct (Hclaim Demo.engine_two_chains Demo.rq Demo.model OPTIMAL
              Demo.σ_two_chains)
    as (it & c & f & k & Hsolve & _ & Hdist).
  - vm_compute. reflexivity.
  - reflexivity.
  - left. reflexivity.
  - exact demo_feasible.
  - vm_compute in Hsolve. injection Hsolve as _ _ _ <-.
    vm_compute in Hdist. discriminate Hdist.
Qed.

(** C7 as stated fails: a request with [budget_day = 0] is not rejected;
    the call goes through to the engine and returns the empty result. *)
Lemma C7_counterexample :
  ¬ (∀ (solver : option Engine) (rq : Request),
       ¬ precondition rq → ∃ e, solve_mtsp solver rq = Raise e).
Proof.
  intros Hclaim.
  destruct (Hclaim (Some Demo.engine_infeasible) Demo.rq_no_budget) as [e He].
  - intros (_ & _ & _ & Hbudget & _). vm_compute in Hbudget. discriminate Hbudget.
  - vm_compute in He. discriminate He.
Qed.

(** * Further properties of the model and of the pipeline *)

Lemma py_sum_fmap_ext {A} (f g : A → Q) (l : list A) :
  (∀ x, x ∈ l → (f x == g x)%Q) → (py_sum (f <$> l) == py_sum (g <$> l))%Q.
Proof.
  induction l as [|a l IH]; intros Hfg; [reflexivity|].
  rewrite !fmap_cons, !py_sum_cons, IH by (intros; apply Hfg; by right).
  rewrite (Hfg a) by left. reflexivity.
Qed.

Lemma py_sum_zero (l : list Q) : Forall (λ x, (x == 0)%Q) l → (py_sum l == 0)%Q.
Proof.
  induction 1 as [|x l Hx _ IH]; [reflexivity|].
  rewrite py_sum_cons, Hx, IH. ring.
Qed.

Lemma big_sum_scale (k : nat) (c : Q) (f : nat → Q) :
  (big_sum k (λ i, c * f i) == c * big_sum k f)%Q.
Proof.
  induction k as [|k IH]; simpl; [ring|]. rewrite IH. ring.
Qed.

Lemma big_sum_nonneg (k : nat) (f : nat → Q) :
  (∀ i, i < k → (0 <= f i)%Q) → (0 <= big_sum k f)%Q.
Proof.
  induction k as [|k IH]; intros Hf; simpl; [lra|].
  pose proof (Hf k (Nat.lt_succ_diag_r k)).
  assert (0 <= big_sum k f)%Q by (apply IH; intros; apply Hf; lia). lra.
Qed.

(** A sum over the pairs of distinct indices, as a double sum. *)
Lemma py_sum_arc_pairs (n : nat) (h : nat → nat → Q) :
  (py_sum ((λ '(i, j), h i j) <$> arc_pairs n)
   == big_sum n (λ i, big_sum n (λ j,
        if bool_decide (i ≠ j) then h i j else 0)))%Q.
Proof.
  unfold arc_pairs.
  rewrite fmap_bind_list, py_sum_bind_seq. apply big_sum_ext. intros i _.
  rewrite fmap_bind_list, py_sum_bind_seq. apply big_sum_ext. intros j _.
  destruct (decide (i = j)) as [->|Hne].
  - rewrite bool_decide_eq_false_2 by (intros H; by apply H). reflexivity.
  - rewrite bool_decide_eq_true_2 by done.
    rewrite fmap_cons, py_sum_cons. simpl. rewrite py_sum_nil. ring.
Qed.

Section feasible_more.
Context (rq : Request) (m : Model) (σ : Assignment).
Hypothesis built : build_model rq = Return m.
Hypothesis feas : feasible m σ.

#[local] Abbreviation n := (length (names_of rq)).

(** Constraint (3), with the 0/1 values read as the materialized
    assignment. *)
Lemma feasible_time d :
  d < days rq →
  (py_sum ((λ i, visit_time_of rq !!! i) <$> day_indices n σ d)
   + day_arc_sum σ n d (cell (travel_time_of rq)) <= time_day rq)%Q.
Proof.
  intros Hd.
  assert (time_constraint rq d ∈ model_constraints rq) as Hin.
  { unfold model_constraints.
    apply elem_of_app. right. apply elem_of_app. right. apply elem_of_app. left.
    apply list_elem_of_fmap. exists d. split; [done|]. apply elem_of_seq. lia. }
  apply (feasible_constraint rq m σ built feas) in Hin.
  unfold holds, time_constraint in Hin.
  rewrite eval_EAdd, eval_ESum in Hin. unfold travel_terms in Hin.
  rewrite eval_ESum in Hin. cbn [eval] in Hin.
  rewrite (py_sum_perm _ ((λ i, visit_time_of rq !!! i) <$> assigned_of σ n d)).
  2:{ apply fmap_Permutation, day_indices_perm.
      by apply (feasible_arcs_within rq m σ). }
  unfold assigned_of.
  rewrite (assigned_sum rq m σ built feas) by
    (done || (apply Forall_forall; intros i Hi; apply elem_of_seq in Hi; lia)).
  assert (day_arc_sum σ n d (cell (travel_time_of rq))
          == py_sum ((λ x, eval σ (let '(i, j) := x in
                        EScale (cell (travel_time_of rq) i j) (EVar (X i j d))))
                     <$> arc_pairs n))%Q as ->; [|exact Hin].
  unfold day_arc_sum.
  rewrite (py_sum_fmap_ext _
    (λ '(i, j), if arc σ i j d then cell (travel_time_of rq) i j else 0%Q)).
  - rewrite (py_sum_arc_pairs n
      (λ i j, if arc σ i j d then cell (travel_time_of rq) i j else 0%Q)).
    apply big_sum_ext. intros i _. apply big_sum_ext. intros j _.
    by destruct (bool_decide (i ≠ j)), (arc σ i j d).
  - intros [i j] Hij. apply elem_of_arc_pairs in Hij as (Hi & Hj & Hne).
    simpl. rewrite (feasible_arc rq m σ built feas i j d) by done.
    destruct (arc σ i j d); ring.
Qed.
End feasible_more.

Section feasible_routes.
Context (rq : Request) (m : Model) (σ : Assignment).
Hypothesis built : build_model rq = Return m.
Hypothesis feas : feasible m σ.

#[local] Abbreviation n := (length (names_of rq)).

(** Constraint (5) on a used arc: the order strictly grows along it. *)
Lemma feasible_mtz i j d :
  i < n → j < n → i ≠ j → d < days rq → arc σ i j d →
  (σ (U i d) + 1 <= σ (U j d))%Q.
Proof.
  intros Hi Hj Hne Hd Harc.
  assert (CLe (EAdd (ESub (EVar (U i d)) (EVar (U j d)))
                    (EScale (Qnat n) (EVar (X i j d))))
              (EConst (Qnat n - 1)%Q) ∈ model_constraints rq) as Hin.
  { unfold model_constraints.
    do 4 (apply elem_of_app; right). apply elem_of_app. left.
    unfold mtz_constraints. apply list_elem_of_fmap. exists (i, j, d).
    split; [done|]. by apply elem_of_x_keys. }
  apply (feasible_constraint rq m σ built feas) in Hin.
  unfold holds in Hin. cbn [eval] in Hin.
  rewrite (feasible_arc rq m σ built feas i j d) in Hin by done.
  destruct (arc σ i j d); [|done]. lra.
Qed.

Lemma arc_path_tail d a p : arc_path σ n d (a :: p) → arc_path σ n d p.
Proof. intros Hp k x y Hx Hy. by apply (Hp (S k)). Qed.

Lemma arc_path_order d a p x :
  d < days rq → arc_path σ n d (a :: p) → x ∈ p → (σ (U a d) < σ (U x d))%Q.
Proof.
  intros Hd. revert a.
  induction p as [|b p IH]; intros a Hp Hx; [by apply elem_of_nil in Hx|].
  destruct (Hp 0 a b eq_refl eq_refl) as (Ha & Hb & Hne & Harc).
  pose proof (feasible_mtz a b d Ha Hb Hne Hd Harc) as Hab.
  apply elem_of_cons in Hx as [->|Hx]; [lra|].
  pose proof (IH b (arc_path_tail d a _ Hp) Hx). lra.
Qed.

Lemma arc_path_NoDup d p : d < days rq → arc_path σ n d p → NoDup p.
Proof.
  intros Hd. induction p as [|a p IH]; intros Hp; [constructor|].
  constructor.
  - intros Hin. pose proof (arc_path_order d a p a Hd Hp Hin). lra.
  - apply IH. by eapply arc_path_tail.
Qed.

(** Constraint (1), lower bound. *)
Lemma feasible_degree_lower i d :
  i < n → d < days rq →
  (σ (Y i d) <= py_sum ((λ j, σ (X j i d)) <$> others n i)
                + py_sum ((λ j, σ (X i j d)) <$> others n i))%Q.
Proof.
  intros Hi Hd.
  assert (CGe (EAdd (ESum ((λ j, EVar (X j i d)) <$> others n i))
                    (ESum ((λ j, EVar (X i j d)) <$> others n i)))
              (EVar (Y i d)) ∈ model_constraints rq) as Hin.
  { unfold model_constraints. apply elem_of_app. left.
    unfold flow_constraints. apply list_elem_of_bind. exists d.
    split; [|apply elem_of_seq; lia].
    apply list_elem_of_bind. exists i. split; [|apply elem_of_seq; lia].
    apply list_elem_of_here. }
  apply (feasible_constraint rq m σ built feas) in Hin. unfold holds in Hin.
  rewrite eval_EAdd, !eval_ESum in Hin. exact Hin.
Qed.

(** A visited attraction has a used arc to or from another attraction. *)
Lemma feasible_neighbour i d :
  i < n → d < days rq → visit σ i d →
  ∃ j, j < n ∧ j ≠ i ∧ (arc σ i j d ∨ arc σ j i d).
Proof.
  intros Hi Hd Hv.
  destruct (decide (Exists (λ j, arc σ i j d ∨ arc σ j i d) (others n i)))
    as [Hex|Hnex].
  { apply Exists_exists in Hex as (j & Hj & Harc).
    apply (elem_of_others rq) in Hj as [Hj Hne]. exists j. by split_and!. }
  exfalso. apply not_Exists_Forall in Hnex; [|intros j; apply _].
  rewrite Forall_forall in Hnex.
  pose proof (feasible_degree_lower i d Hi Hd) as Hdeg.
  assert (σ (Y i d) == 1)%Q as Hy.
  { rewrite (feasible_visit rq m σ built feas i d) by done.
    by destruct (visit σ i d). }
  assert (py_sum ((λ j, σ (X j i d)) <$> others n i) == 0)%Q as Hin.
  { apply py_sum_zero, Forall_fmap, Forall_forall. intros j Hj. simpl.
    pose proof (Hnex j Hj) as Hno. apply (elem_of_others rq) in Hj as [Hj Hne].
    rewrite (feasible_arc rq m σ built feas j i d) by done.
    destruct (arc σ j i d) eqn:E; [|done]. exfalso. apply Hno. right.
    by rewrite E. }
  assert (py_sum ((λ j, σ (X i j d)) <$> others n i) == 0)%Q as Hout.
  { apply py_sum_zero, Forall_fmap, Forall_forall. intros j Hj. simpl.
    pose proof (Hnex j Hj) as Hno. apply (elem_of_others rq) in Hj as [Hj Hne].
    rewrite (feasible_arc rq m σ built feas i j d) by (done || congruence).
    destruct (arc σ i j d) eqn:E; [|done]. exfalso. apply Hno. left.
    by rewrite E. }
  lra.
Qed.

(** So no day holds exactly one attraction. *)
Lemma feasible_not_alone d :
  d < days rq → length (day_indices n σ d) ≠ 1.
Proof.
  intros Hd Hlen.
  pose proof (feasible_arcs_within rq m σ built feas d Hd) as Hwithin.
  pose proof (day_indices_perm n σ d Hwithin) as Hperm.
  rewrite Hperm in Hlen.
  destruct (assigned_of σ n d) as [|i [|??]] eqn:Has; try done.
  assert (i ∈ assigned_of σ n d) as Hi by (rewrite Has; apply list_elem_of_here).
  apply assigned_of_elem in Hi as [Hi Hv].
  destruct (feasible_neighbour i d Hi Hd Hv) as (j & Hj & Hne & Harc).
  assert (visit σ j d) as Hvj.
  { destruct Harc as [Harc|Harc].
    - by destruct (Hwithin i j Hi Hj (not_eq_sym Hne) Harc).
    - by destruct (Hwithin j i Hj Hi Hne Harc). }
  assert (j ∈ assigned_of σ n d) as Hjin by (by apply assigned_of_elem).
  rewrite Has in Hjin. apply list_elem_of_singleton in Hjin. done.
Qed.
End feasible_routes.

(** ** The objective *)

Lemma build_model_objective rq m :
  build_model rq = Return m → objective m = model_objective rq.
Proof.
  intros Hb. pose proof (build_model_inv rq m Hb) as (Hc & _ & _).
  assert (build_objective (length (names_of rq)) (days rq) (fun_of rq)
            (distances rq) (alpha rq) = Return (model_objective rq)) as Ho.
  { unfold build_objective, model_objective, fun_terms.
    destruct (alpha rq) as [a|]; [|by rewrite app_nil_r].
    destruct (Qeq_bool a 0); [by rewrite app_nil_r|].
    rewrite (traverse_Return _
      (λ '(i, j, d), (X i j d, (- a * cell (distances rq) i j)%Q))); [done|].
    intros [[i j] d] Hin. apply elem_of_x_keys in Hin as (Hi & Hj & Hne & Hd).
    destruct Hc as [Hz|Hcov]; [lia|].
    destruct (Hcov i j Hi Hj Hne). by rewrite at_in_bounds. }
  unfold build_model in Hb.
  destruct (SetTimeLimit _) as [limit|e]; [|done].
  cbn [mbind result_bind] in Hb. rewrite Ho in Hb. simpl in Hb.
  destruct (time_constraints _ _ _ _ _) as [timec|e]; [|done].
  simpl in Hb. by injection Hb as <-.
Qed.

Lemma py_sum_y_keys (n ndays : nat) (h : nat → nat → Q) :
  (py_sum ((λ '(i, d), h i d) <$> y_keys n ndays)
   == big_sum ndays (λ d, big_sum n (λ i, h i d)))%Q.
Proof.
  unfold y_keys.
  rewrite fmap_bind_list, py_sum_bind_seq. apply big_sum_ext. intros d _.
  rewrite fmap_bind_list, py_sum_bind_seq. apply big_sum_ext. intros i _.
  rewrite fmap_cons, py_sum_cons. simpl. rewrite py_sum_nil. ring.
Qed.

Lemma py_sum_x_keys (n ndays : nat) (h : nat → nat → nat → Q) :
  (py_sum ((λ '(i, j, d), h i j d) <$> x_keys n ndays)
   == big_sum ndays (λ d, big_sum n (λ i, big_sum n (λ j,
        if bool_decide (i ≠ j) then h i j d else 0))))%Q.
Proof.
  unfold x_keys.
  rewrite fmap_bind_list, py_sum_bind_seq. apply big_sum_ext. intros d _.
  rewrite <-list_fmap_compose.
  rewrite <-(py_sum_arc_pairs n (λ i j, h i j d)).
  apply py_sum_fmap_ext. by intros [i j] _.
Qed.

Section objective.
Context (rq : Request) (m : Model) (σ : Assignment).
Hypothesis built : build_model rq = Return m.
Hypothesis feas : feasible m σ.

#[local] Abbreviation n := (length (names_of rq)).

Lemma fun_terms_value :
  (objective_value σ (fun_terms rq)
   == spec_total_fun σ n (days rq) (λ i, fun_of rq !!! i))%Q.
Proof.
  unfold objective_value, fun_terms. rewrite <-list_fmap_compose.
  rewrite (py_sum_fmap_ext _ (λ '(i, d), fun_of rq !!! i * σ (Y i d))%Q)
    by (by intros [i d] _).
  rewrite (py_sum_y_keys n (days rq) (λ i d, fun_of rq !!! i * σ (Y i d))%Q).
  apply big_sum_ext. intros d Hd. apply big_sum_ext. intros i Hi.
  rewrite (feasible_visit rq m σ built feas i d) by done.
  destruct (visit σ i d); ring.
Qed.

Lemma arc_terms_value a :
  (objective_value σ (arc_terms rq a)
   == - a * spec_total_distance σ n (days rq) (cell (distances rq)))%Q.
Proof.
  unfold objective_value, arc_terms. rewrite <-list_fmap_compose.
  rewrite (py_sum_fmap_ext _
    (λ '(i, j, d), - a * cell (distances rq) i j * σ (X i j d))%Q)
    by (by intros [[i j] d] _).
  rewrite (py_sum_x_keys n (days rq)
    (λ i j d, - a * cell (distances rq) i j * σ (X i j d))%Q).
  unfold spec_total_distance.
  rewrite <-big_sum_scale. apply big_sum_ext. intros d Hd.
  rewrite <-big_sum_scale. apply big_sum_ext. intros i Hi.
  rewrite <-big_sum_scale. apply big_sum_ext. intros j Hj.
  destruct (decide (i = j)) as [->|Hne].
  - rewrite bool_decide_eq_false_2 by (intros H; by apply H). simpl. ring.
  - rewrite bool_decide_eq_true_2 by done. simpl.
    rewrite (feasible_arc rq m σ built feas i j d) by done.
    destruct (arc σ i j d); ring.
Qed.

Lemma objective_value_totals :
  (objective_value σ (objective m)
   == spec_total_fun σ n (days rq) (λ i, fun_of rq !!! i)
      - default 0 (alpha rq)
        * spec_total_distance σ n (days rq) (cell (distances rq)))%Q.
Proof.
  rewrite (build_model_objective rq m built). unfold model_objective.
  unfold objective_value. rewrite fmap_app, py_sum_app.
  fold (objective_value σ (fun_terms rq)). rewrite fun_terms_value.
  destruct (alpha rq) as [a|].
  - change (default 0%Q (Some a)) with a.
    destruct (Qeq_bool a 0) eqn:Hz.
    + apply Qeq_bool_iff in Hz. rewrite fmap_nil, py_sum_nil, Hz. ring.
    + fold (objective_value σ (arc_terms rq a)). rewrite arc_terms_value. ring.
  - change (default 0%Q None) with 0%Q. rewrite fmap_nil, py_sum_nil. ring.
Qed.
End objective.

(** ** The size of the model *)

Lemma length_bind_const {A B} (f : A → list B) (l : list A) (c : nat) :
  (∀ x, x ∈ l → length (f x) = c) → length (l ≫= f) = length l * c.
Proof.
  induction l as [|a l IH]; intros Hf; [done|].
  rewrite bind_cons, length_app, IH, (Hf a) by (intros; try apply Hf; by constructor).
  simpl. lia.
Qed.

Lemma length_arc_row (i k : nat) :
  length (seq 0 k ≫= λ j, if decide (i = j) then [] else [(i, j)])
  = k - (if decide (i < k) then 1 else 0).
Proof.
  induction k as [|k IH]; [done|].
  rewrite seq_S, bind_app, length_app, IH. simpl.
  destruct (decide (i = k)) as [->|Hne]; simpl.
  - rewrite decide_False by lia. rewrite decide_True by lia. lia.
  - destruct (decide (i < k)).
    + rewrite decide_True by lia. lia.
    + rewrite decide_False by lia. lia.
Qed.

Lemma length_arc_pairs n : length (arc_pairs n) = n * (n - 1).
Proof.
  unfold arc_pairs. rewrite (length_bind_const _ _ (n - 1)).
  - by rewrite length_seq.
  - intros i Hi. apply elem_of_seq in Hi.
    rewrite length_arc_row. rewrite decide_True by lia. done.
Qed.

Lemma length_x_keys n ndays : length (x_keys n ndays) = ndays * (n * (n - 1)).
Proof.
  unfold x_keys. rewrite (length_bind_const _ _ (n * (n - 1))).
  - by rewrite length_seq.
  - intros d _. by rewrite length_fmap, length_arc_pairs.
Qed.

Lemma length_y_keys n ndays : length (y_keys n ndays) = ndays * n.
Proof.
  unfold y_keys. rewrite (length_bind_const _ _ n).
  - by rewrite length_seq.
  - intros d _. rewrite (length_bind_const _ _ 1); [|done].
    rewrite length_seq. lia.
Qed.

(** ** Only declared variables are used *)

Lemma declared_in_range n ndays v :
  v ∈ (declare_variables n ndays).*1 ↔ key_in_range n ndays v.
Proof.
  unfold declare_variables. rewrite !fmap_app, !elem_of_app, <-!list_fmap_compose.
  rewrite !list_elem_of_fmap. split.
  - intros [([[i j] d] & -> & Hin)|[([i d] & -> & Hin)|([i d] & -> & Hin)]]; simpl.
    + by apply elem_of_x_keys in Hin.
    + by apply elem_of_y_keys in Hin.
    + by apply elem_of_y_keys in Hin.
  - destruct v as [i j d|i d|i d]; simpl; intros Hr.
    + left. exists (i, j, d). split; [done|]. by apply elem_of_x_keys.
    + right. left. exists (i, d). split; [done|]. by apply elem_of_y_keys.
    + right. right. exists (i, d). split; [done|]. by apply elem_of_y_keys.
Qed.

Lemma elem_of_vars_ESum {A} (f : A → LinExpr) (l : list A) v :
  v ∈ vars_of (ESum (f <$> l)) → ∃ x, x ∈ l ∧ v ∈ vars_of (f x).
Proof.
  simpl. induction l as [|a l IH]; simpl; [by intros ?%elem_of_nil|].
  intros [Hv|Hv]%elem_of_app.
  - exists a. split; [left|done].
  - destruct (IH Hv) as (x & Hx & Hvx). exists x. split; [by right|done].
Qed.

Lemma model_constraints_vars rq c v :
  c ∈ model_constraints rq → v ∈ constraint_vars c →
  key_in_range (length (names_of rq)) (days rq) v.
Proof.
  unfold model_constraints. rewrite !elem_of_app.
  intros [Hc|[Hc|[Hc|[Hc|[Hc|Hc]]]]].
  - (* flow *)
    unfold flow_constraints in Hc.
    apply list_elem_of_bind in Hc as (d & Hc & Hd%elem_of_seq).
    apply list_elem_of_bind in Hc as (i & Hc & Hi%elem_of_seq).
    assert (∀ v, v ∈ vars_of (EAdd
               (ESum ((λ j, EVar (X j i d)) <$> others (length (names_of rq)) i))
               (ESum ((λ j, EVar (X i j d)) <$> others (length (names_of rq)) i))) →
             key_in_range (length (names_of rq)) (days rq) v) as Hsum.
    { intros w. cbn [vars_of]. intros [Hw|Hw]%elem_of_app;
        apply elem_of_vars_ESum in Hw as (j & Hj & Hw);
        apply list_elem_of_singleton in Hw as ->;
        apply (elem_of_others rq) in Hj as [Hj Hne]; simpl; lia. }
    apply elem_of_cons in Hc as [->|Hc];
      [|apply list_elem_of_singleton in Hc as ->];
      unfold constraint_vars; intros [Hv|Hv]%elem_of_app;
      try (by apply Hsum);
      cbn [vars_of] in Hv; apply list_elem_of_singleton in Hv as ->; simpl; lia.
  - (* once *)
    unfold once_constraints in Hc.
    apply list_elem_of_bind in Hc as (i & Hc & Hi%elem_of_seq).
    apply list_elem_of_singleton in Hc as ->.
    unfold constraint_vars. intros [Hv|Hv]%elem_of_app.
    + apply elem_of_vars_ESum in Hv as (d & Hd%elem_of_seq & Hv).
      apply list_elem_of_singleton in Hv as ->. simpl. lia.
    + by apply elem_of_nil in Hv.
  - (* time *)
    apply list_elem_of_fmap in Hc as (d & -> & Hd%elem_of_seq).
    unfold time_constraint, constraint_vars. intros [Hv|Hv]%elem_of_app.
    + cbn [vars_of] in Hv. apply elem_of_app in Hv as [Hv|Hv].
      * apply elem_of_vars_ESum in Hv as (i & Hi%elem_of_seq & Hv).
        apply list_elem_of_singleton in Hv as ->. simpl. lia.
      * unfold travel_terms in Hv.
        apply elem_of_vars_ESum in Hv as ([i j] & Hij & Hv).
        apply elem_of_arc_pairs in Hij.
        apply list_elem_of_singleton in Hv as ->. simpl. lia.
    + by apply elem_of_nil in Hv.
  - (* budget *)
    unfold budget_constraints in Hc.
    apply list_elem_of_bind in Hc as (d & Hc & Hd%elem_of_seq).
    apply list_elem_of_singleton in Hc as ->.
    unfold constraint_vars. intros [Hv|Hv]%elem_of_app.
    + apply elem_of_vars_ESum in Hv as (i & Hi%elem_of_seq & Hv).
      apply list_elem_of_singleton in Hv as ->. simpl. lia.
    + by apply elem_of_nil in Hv.
  - (* MTZ *)
    unfold mtz_constraints in Hc.
    apply list_elem_of_fmap in Hc as ([[i j] d] & -> & Hk).
    apply elem_of_x_keys in Hk.
    unfold constraint_vars. cbn [vars_of]. rewrite !elem_of_app.
    rewrite !list_elem_of_singleton, elem_of_nil.
    intros [[[->| ->]| ->]|[]]; simpl; lia.
  - (* order *)
    unfold order_constraints in Hc.
    apply list_elem_of_bind in Hc as (d & Hc & Hd%elem_of_seq).
    apply list_elem_of_bind in Hc as (i & Hc & Hi%elem_of_seq).
    apply elem_of_cons in Hc as [->|Hc];
      [|apply list_elem_of_singleton in Hc as ->];
      unfold constraint_vars; cbn [vars_of]; rewrite !elem_of_app;
      rewrite !list_elem_of_singleton; intros [->| ->]; simpl; lia.
Qed.

Lemma model_objective_vars rq v q :
  (v, q) ∈ model_objective rq →
  key_in_range (length (names_of rq)) (days rq) v.
Proof.
  unfold model_objective. intros [Hin|Hin]%elem_of_app.
  - unfold fun_terms in Hin.
    apply list_elem_of_fmap in Hin as ([i d] & [= -> _] & Hk).
    by apply elem_of_y_keys in Hk.
  - destruct (alpha rq) as [a|]; [|by apply elem_of_nil in Hin].
    destruct (Qeq_bool a 0); [by apply elem_of_nil in Hin|].
    unfold arc_terms in Hin.
    apply list_elem_of_fmap in Hin as ([[i j] d] & [= -> _] & Hk).
    by apply elem_of_x_keys in Hk.
Qed.

(** ** When the index fault happens *)

Lemma covers_iff (M : Matrix) (n : nat) :
  covers M n ↔ n < 2 ∨ (n ≤ shape_rows M ∧ n ≤ shape_cols M).
Proof.
  split.
  - intros Hcov. destruct (decide (n < 2)) as [|Hn]; [by left|right].
    destruct (Hcov (n - 1) 0) as [Hr _]; [lia..|].
    destruct (Hcov 0 (n - 1)) as [_ Hc]; [lia..|]. lia.
  - intros [Hn|[Hr Hc]] i j Hi Hj Hne; lia.
Qed.

(** ** Edge cases of the decoder and of the totals *)

Lemma bind_nil_const {A B} (l : list A) : l ≫= (λ _, @nil B) = [].
Proof. induction l as [|a l IH]; [done|]. by rewrite bind_cons, IH. Qed.

Lemma fmap_const_seq {B} (b : B) (k : nat) : (λ _, b) <$> seq 0 k = replicate k b.
Proof.
  induction k as [|k IH]; [done|].
  rewrite seq_S, fmap_app, IH. simpl.
  by rewrite <-replicate_S_end.
Qed.

Lemma decode_day_head {A} (label : nat → A) n σ d :
  head (decode_day label n σ d) = label <$> head (assigned_of σ n d).
Proof.
  destruct (decode_day_chains label n σ d) as (chains & Hcs & _ & ->).
  inversion Hcs as [v|v s starts cs v' Hin _|v s starts chain v1 cs v' Hnot Hch _];
    subst; simpl.
  - done.
  - by apply not_elem_of_empty in Hin.
  - apply spec_chain_head in Hch; [|done].
    destruct chain as [|c chain]; [done|].
    simpl in Hch. by injection Hch as ->.
Qed.

Lemma lookup_total_Forall {A} `{!Inhabited A} (P : A → Prop) (l : list A) i :
  Forall P l → i < length l → P (l !!! i).
Proof.
  intros Hall Hi. destruct (lookup_lt_is_Some_2 l i Hi) as [x Hx].
  rewrite (list_lookup_total_correct _ _ _ Hx).
  by eapply Forall_lookup_1.
Qed.

Lemma names_lookup_elem (names : list string) i :
  i < length names → names !!! i ∈ names.
Proof.
  intros Hi. destruct (lookup_lt_is_Some_2 names i Hi) as [x Hx].
  rewrite (list_lookup_total_correct _ _ _ Hx).
  by eapply list_elem_of_lookup_2.
Qed.

(** Every decoded name is a name of the table. *)
Lemma decode_day_names (names : list string) σ d nm :
  nm ∈ decode_day (λ cur, names !!! cur) (length names) σ d → nm ∈ names.
Proof.
  rewrite decode_day_indices. intros (i & -> & Hi)%list_elem_of_fmap.
  apply names_lookup_elem. by eapply day_indices_lt.
Qed.

Lemma elem_of_concat {A} (x : A) (ls : list (list A)) :
  x ∈ concat ls ↔ ∃ l, x ∈ l ∧ l ∈ ls.
Proof.
  induction ls as [|l ls IH]; simpl.
  - split; [by intros ?%elem_of_nil|by intros (? & _ & ?%elem_of_nil)].
  - rewrite elem_of_app, IH. split.
    + intros [Hx|(l' & Hx & Hl')]; [exists l; split; [done|left]|].
      exists l'. split; [done|by right].
    + intros (l' & Hx & [->|Hl']%elem_of_cons); [by left|right; by exists l'].
Qed.

Lemma NoDup_concat_fmap {A} (f : nat → list A) (ds : list nat) :
  NoDup ds →
  (∀ d, d ∈ ds → NoDup (f d)) →
  (∀ d1 d2 x, d1 ∈ ds → d2 ∈ ds → x ∈ f d1 → x ∈ f d2 → d1 = d2) →
  NoDup (concat (f <$> ds)).
Proof.
  induction 1 as [|d ds Hd Hnd IH]; intros Hin Hdis; simpl; [constructor|].
  apply NoDup_app. split_and!.
  - apply Hin. left.
  - intros x Hx Hx'. apply elem_of_concat in Hx' as (l & Hxl & Hl).
    apply list_elem_of_fmap in Hl as (d' & -> & Hd').
    assert (d = d') as <-; [|done].
    apply (Hdis d d' x); [left|by right|done..].
  - apply IH.
    + intros d' Hd'. apply Hin. by right.
    + intros d1 d2 x H1 H2. apply Hdis; by right.
Qed.

Lemma fun_of_nonneg rq :
  (∀ a, a ∈ rows (attractions rq) → (0 <= fun_score a)%Q) →
  (∀ w k q, weights rq = Some w → w !! k = Some q → (0 <= q)%Q) →
  Forall (λ x, (0 <= x)%Q) (fun_of rq).
Proof.
  intros Hfun Hw. unfold fun_of.
  destruct (weights rq) as [w|] eqn:Hweights;
    [destruct (has_category (attractions rq))|];
    apply Forall_fmap, Forall_forall; intros a Ha; simpl;
    try (by apply Hfun).
  apply Qmult_le_0_compat; [by apply Hfun|].
  destruct (w !! category a) as [q|] eqn:Hq; simpl; [|lra].
  by eapply Hw.
Qed.

(** ** Drawing the routes *)

Lemma traverse_Forall2 {A B} (f : A → result B) (P : A → B → Prop) (l : list A) :
  (∀ a, a ∈ l → ∃ b, f a = Return b ∧ P a b) →
  ∃ bs, traverse f l = Return bs ∧ Forall2 P l bs.
Proof.
  induction l as [|a l IH]; intros Hf; simpl.
  - exists []. split; [done|constructor].
  - destruct (Hf a) as (b & Hb & HP); [left|].
    destruct IH as (bs & Hbs & HF); [intros; apply Hf; by right|].
    exists (b :: bs). rewrite Hb, Hbs. split; [done|by constructor].
Qed.

Lemma first_named_Return (places : list App.Place) nm :
  nm ∈ name <$> (App.place <$> places) →
  ∃ p, App.first_named places nm = Return p ∧ p ∈ places ∧ name (App.place p) = nm.
Proof.
  intros (a & -> & (p & -> & Hp)%list_elem_of_fmap)%list_elem_of_fmap.
  unfold App.first_named.
  destruct (filter _ places) as [|q l] eqn:Hf.
  - assert (p ∈ filter (λ p0, name (App.place p0) = name (App.place p)) places) as Hin
      by (by apply list_elem_of_filter).
    rewrite Hf in Hin. by apply elem_of_nil in Hin.
  - exists q. split; [done|].
    assert (q ∈ filter (λ p0, name (App.place p0) = name (App.place p)) places) as Hin
      by (rewrite Hf; left).
    by apply list_elem_of_filter in Hin as [? ?].
Qed.

Lemma markers_app l1 l2 : App.markers (l1 ++ l2) = App.markers l1 + App.markers l2.
Proof. unfold App.markers. by rewrite filter_app, length_app. Qed.

Lemma polylines_app l1 l2 :
  App.polylines (l1 ++ l2) = App.polylines l1 + App.polylines l2.
Proof. unfold App.polylines. by rewrite filter_app, length_app. Qed.

Lemma length_filter_lt_seq (k len : nat) :
  length (filter (λ i, i < k) (seq 0 len)) = k `min` len.
Proof.
  induction len as [|len IH]; [simpl; lia|].
  rewrite seq_S, filter_app, length_app, IH. simpl.
  rewrite filter_cons, filter_nil. destruct (decide (len < k)); simpl; lia.
Qed.

Lemma stops_count (len : nat) (l : list nat) stops :
  Forall2 (stop_ok len) l stops →
  length stops = length l
  ∧ App.markers (concat (stops.*2)) = length l
  ∧ App.polylines (concat (stops.*2)) = length (filter (λ i, i < len - 1) l).
Proof.
  induction 1 as [|i stop l stops [Hm Hp] _ (IH1 & IH2 & IH3)]; [done|].
  rewrite fmap_cons. cbn [concat].
  rewrite markers_app, polylines_app, IH2, IH3, Hm, Hp, filter_cons.
  cbn [length]. rewrite IH1. split_and!; [done..|].
  destruct (decide (i < len - 1)); cbn [length]; lia.
Qed.

Lemma draw_day_nonempty (places : list App.Place) st day_idx route :
  route ≠ [] →
  App.draw_day places st day_idx route =
    (stops ← traverse
       (App.draw_stop places day_idx
          (App.colors !!! (day_idx mod length App.colors)) route)
       (seq 0 (length route));
     Return (st.1 ++ stops.*1, st.2 ++ concat (stops.*2))).
Proof. by destruct route. Qed.

Lemma draw_day_known (places : list App.Place) st day_idx route :
  (∀ nm, nm ∈ route → nm ∈ name <$> (App.place <$> places)) →
  ∃ st', App.draw_day places st day_idx route = Return st'
    ∧ length st'.1 = length st.1 + length route
    ∧ App.markers st'.2 = App.markers st.2 + length route
    ∧ App.polylines st'.2 = App.polylines st.2 + (length route - 1).
Proof.
  intros Hknown.
  destruct (decide (route = [])) as [->|Hne].
  { exists st. simpl. split_and!; [done|lia..]. }
  destruct (traverse_Forall2
    (App.draw_stop places day_idx
       (App.colors !!! (day_idx mod length App.colors)) route)
    (stop_ok (length route)) (seq 0 (length route))) as (stops & Htr & HF).
  { intros i Hi%elem_of_seq. unfold App.draw_stop.
    destruct (first_named_Return places (route !!! i)) as (a & Ha & _).
    { apply Hknown, names_lookup_elem. lia. }
    rewrite Ha. simpl.
    destruct (decide (i < length route - 1)) as [Hlt|Hge].
    - destruct (first_named_Return places (route !!! (i + 1))) as (b & Hb & _).
      { apply Hknown, names_lookup_elem. lia. }
      rewrite Hb. simpl. eexists. split; [done|].
      split; [done|]. simpl. by rewrite decide_True.
    - eexists. split; [done|]. split; [done|]. simpl. by rewrite decide_False. }
  rewrite (draw_day_nonempty places st day_idx route Hne), Htr. simpl.
  eexists. split; [done|]. simpl.
  apply stops_count in HF as (Hlen & Hm & Hp).
  rewrite length_seq in Hlen, Hm.
  rewrite length_filter_lt_seq in Hp.
  rewrite length_app, length_fmap, markers_app, polylines_app, Hlen, Hm, Hp.
  split_and!; [done..|]. by rewrite Nat.min_l by lia.
Qed.

Lemma steps_nil : App.steps [] = 0.
Proof. reflexivity. Qed.

Lemma steps_cons route rest :
  App.steps (route :: rest) = (length route - 1) + App.steps rest.
Proof. reflexivity. Qed.

Lemma draw_days_known (places : list App.Place) itinerary st day_idx :
  (∀ route nm, route ∈ itinerary → nm ∈ route →
     nm ∈ name <$> (App.place <$> places)) →
  ∃ st', App.draw_days places st day_idx itinerary = Return st'
    ∧ length st'.1 = length st.1 + length (concat itinerary)
    ∧ App.markers st'.2 = App.markers st.2 + length (concat itinerary)
    ∧ App.polylines st'.2 = App.polylines st.2 + App.steps itinerary.
Proof.
  revert st day_idx.
  induction itinerary as [|route rest IH]; intros st day_idx Hknown.
  { exists st. split; [done|]. rewrite steps_nil. cbn [concat length]. lia. }
  destruct (draw_day_known places st day_idx route) as (st1 & H1 & Hl1 & Hm1 & Hp1).
  { intros nm Hnm. apply (Hknown route); [left|done]. }
  destruct (IH st1 (S day_idx)) as (st' & H' & Hl' & Hm' & Hp').
  { intros r nm Hr. apply Hknown. by right. }
  exists st'. split.
  { cbn [App.draw_days]. rewrite H1. exact H'. }
  rewrite steps_cons. cbn [concat]. rewrite length_app. lia.
Qed.

(** The names of a returned itinerary are names of the table. *)
Lemma solve_mtsp_names CreateSolver rq itinerary c f k route nm :
  solve_mtsp CreateSolver rq = Return (itinerary, c, f, k) →
  route ∈ itinerary → nm ∈ route → nm ∈ names_of rq.
Proof.
  intros Hsolve Hroute Hnm.
  destruct CreateSolver as [solver|]; [|done].
  destruct (build_model rq) as [m|e] eqn:Hb;
    [|by rewrite (solve_mtsp_build_raises solver rq e Hb) in Hsolve].
  destruct (solver m) as [status σ] eqn:Hs.
  destruct (status_ok status) eqn:Hst.
  - rewrite (solve_mtsp_ok solver rq m status σ Hb Hs Hst) in Hsolve.
    simpl in Hsolve. injection Hsolve as <- _ _ _.
    apply list_elem_of_fmap in Hroute as (d & -> & _).
    by eapply decode_day_names.
  - rewrite (solve_mtsp_not_ok solver rq m status σ Hb Hs Hst) in Hsolve.
    injection Hsolve as <- _ _ _.
    apply elem_of_replicate in Hroute as [-> _]. by apply elem_of_nil in Hnm.
Qed.

Lemma head_filter_seq (P : nat → Prop) `{∀ x, Decision (P x)} (a k s : nat) :
  head (filter P (seq a k)) = Some s → P s ∧ ∀ i, a ≤ i → i < s → ¬ P i.
Proof.
  revert a. induction k as [|k IH]; intros a; simpl; [done|].
  rewrite filter_cons. destruct (decide (P a)) as [Hp|Hp]; simpl.
  - intros [= <-]. split; [done|]. intros i ??. lia.
  - intros Hs. destruct (IH (S a) Hs) as [HP Hmin]. split; [done|].
    intros i Hai His. destruct (decide (i = a)) as [->|]; [done|].
    apply Hmin; lia.
Qed.

(** * Further properties: the theorems *)

(** X1: on success with an assignment that satisfies the model, the visit
    times of the attractions decoded for a day plus the travel times along
    the used arcs of that day stay within the daily time. *)
Theorem X1_daily_time (solver : Engine) (rq : Request) (m : Model)
    (status : Status) (σ : Assignment) :
  build_model rq = Return m →
  solver m = (status, σ) →
  status = OPTIMAL ∨ status = FEASIBLE →
  feasible m σ →
  ∃ itinerary total_cost total_fun total_dist,
    solve_mtsp (Some solver) rq
      = Return (itinerary, total_cost, total_fun, total_dist)
    ∧ ∀ d, d < days rq →
        itinerary !! d
          = Some ((λ i, names_of rq !!! i)
                    <$> day_indices (length (names_of rq)) σ d)
        ∧ (py_sum ((λ i, visit_time_of rq !!! i)
                     <$> day_indices (length (names_of rq)) σ d)
           + day_arc_sum σ (length (names_of rq)) d (cell (travel_time_of rq))
           <= time_day rq)%Q.
Proof.
  intros Hb Hs Hst Hfeas. apply status_ok_true in Hst.
  pose proof (solve_mtsp_ok solver rq m status σ Hb Hs Hst) as Hsolve.
  simpl in Hsolve. do 4 eexists. split; [exact Hsolve|].
  intros d Hd. split.
  - rewrite itinerary_lookup by done. by rewrite decode_day_indices.
  - by eapply feasible_time.
Qed.

(** X2: under an assignment that satisfies the model, the order variable
    grows by at least one along every used arc, so a sequence of used arcs
    of one day never comes back to an attraction: there is no closed loop. *)
Theorem X2_no_closed_loop (rq : Request) (m : Model) (σ : Assignment) (d : nat) :
  build_model rq = Return m →
  feasible m σ →
  d < days rq →
  (∀ i j, i < length (names_of rq) → j < length (names_of rq) → i ≠ j →
     arc σ i j d → (σ (U i d) + 1 <= σ (U j d))%Q)
  ∧ ∀ p, arc_path σ (length (names_of rq)) d p → NoDup p.
Proof.
  intros Hb Hfeas Hd. split.
  - intros i j Hi Hj Hne Harc. by eapply feasible_mtz.
  - intros p Hp. by eapply arc_path_NoDup.
Qed.

(** X3: under an assignment that satisfies the model, a visited attraction
    has a used arc to or from another attraction of its day; so on success
    no day of the itinerary lists exactly one attraction. *)
Theorem X3_never_alone (solver : Engine) (rq : Request) (m : Model)
    (status : Status) (σ : Assignment) :
  build_model rq = Return m →
  solver m = (status, σ) →
  status = OPTIMAL ∨ status = FEASIBLE →
  feasible m σ →
  (∀ i d, i < length (names_of rq) → d < days rq → visit σ i d →
     ∃ j, j < length (names_of rq) ∧ j ≠ i ∧ visit σ j d
          ∧ (arc σ i j d ∨ arc σ j i d))
  ∧ ∃ itinerary total_cost total_fun total_dist,
      solve_mtsp (Some solver) rq
        = Return (itinerary, total_cost, total_fun, total_dist)
      ∧ ∀ d route, itinerary !! d = Some route → length route ≠ 1.
Proof.
  intros Hb Hs Hst Hfeas. split.
  - intros i d Hi Hd Hv.
    destruct (feasible_neighbour rq m σ Hb Hfeas i d Hi Hd Hv)
      as (j & Hj & Hne & Harc).
    exists j. split_and!; [done..| |done].
    pose proof (feasible_arcs_within rq m σ Hb Hfeas d Hd) as Hwithin.
    destruct Harc as [Harc|Harc].
    + by destruct (Hwithin i j Hi Hj (not_eq_sym Hne) Harc).
    + by destruct (Hwithin j i Hj Hi Hne Harc).
  - apply status_ok_true in Hst.
    pose proof (solve_mtsp_ok solver rq m status σ Hb Hs Hst) as Hsolve.
    simpl in Hsolve. do 4 eexists. split; [exact Hsolve|].
    intros d route Hroute. apply itinerary_lookup_inv in Hroute as [Hd ->].
    rewrite decode_day_indices, length_fmap.
    by eapply feasible_not_alone.
Qed.

(** X4: on success with an assignment that satisfies the model and unique
    names, no name occurs twice in the whole itinerary, so it lists at most
    as many names as there are attractions. *)
Theorem X4_no_name_twice (solver : Engine) (rq : Request) (m : Model)
    (status : Status) (σ : Assignment) :
  build_model rq = Return m →
  solver m = (status, σ) →
  status = OPTIMAL ∨ status = FEASIBLE →
  feasible m σ →
  NoDup (names_of rq) →
  ∃ itinerary total_cost total_fun total_dist,
    solve_mtsp (Some solver) rq
      = Return (itinerary, total_cost, total_fun, total_dist)
    ∧ NoDup (concat itinerary)
    ∧ length (concat itinerary) ≤ length (names_of rq).
Proof.
  intros Hb Hs Hst Hfeas Hnd. apply status_ok_true in Hst.
  pose proof (solve_mtsp_ok solver rq m status σ Hb Hs Hst) as Hsolve.
  simpl in Hsolve. do 4 eexists. split; [exact Hsolve|].
  assert (NoDup (concat (decode_day (λ cur, names_of rq !!! cur)
            (length (names_of rq)) σ <$> seq 0 (days rq)))) as Hall.
  { apply NoDup_concat_fmap; [apply NoDup_seq|..].
    - intros d _. by apply decode_day_NoDup.
    - intros d1 d2 nm Hd1%elem_of_seq Hd2%elem_of_seq Hn1 Hn2.
      rewrite decode_day_indices in Hn1, Hn2.
      apply list_elem_of_fmap in Hn1 as (i1 & -> & Hi1).
      apply list_elem_of_fmap in Hn2 as (i2 & Heq & Hi2).
      pose proof (day_indices_lt _ _ _ _ Hi1) as Hlt1.
      pose proof (day_indices_lt _ _ _ _ Hi2) as Hlt2.
      apply names_inj in Heq; [|done..]. subst i2.
      apply day_indices_within, assigned_of_elem in Hi1 as [_ Hv1];
        [|apply (feasible_arcs_within rq m σ Hb Hfeas); lia].
      apply day_indices_within, assigned_of_elem in Hi2 as [_ Hv2];
        [|apply (feasible_arcs_within rq m σ Hb Hfeas); lia].
      apply (feasible_once rq m σ Hb Hfeas i1 d1 d2); (done || lia). }
  split; [done|].
  apply submseteq_length, NoDup_submseteq; [done|].
  intros nm (route & Hnm & Hroute)%elem_of_concat.
  apply list_elem_of_fmap in Hroute as (d & -> & _).
  by eapply decode_day_names.
Qed.

(** X5: for an assignment that satisfies the model, the value of the
    objective handed to the engine is the returned total fun minus [alpha]
    times the returned total distance ([alpha] counted as 0 when absent). *)
Theorem X5_objective_value (solver : Engine) (rq : Request) (m : Model)
    (status : Status) (σ : Assignment) :
  build_model rq = Return m →
  solver m = (status, σ) →
  status = OPTIMAL ∨ status = FEASIBLE →
  feasible m σ →
  ∃ itinerary total_cost total_fun total_dist,
    solve_mtsp (Some solver) rq
      = Return (itinerary, total_cost, total_fun, total_dist)
    ∧ (objective_value σ (objective m)
       == total_fun - default 0 (alpha rq) * total_dist)%Q.
Proof.
  intros Hb Hs Hst Hfeas. apply status_ok_true in Hst.
  pose proof (solve_mtsp_ok solver rq m status σ Hb Hs Hst) as Hsolve.
  simpl in Hsolve. do 4 eexists. split; [exact Hsolve|].
  rewrite (objective_value_totals rq m σ Hb Hfeas).
  rewrite total_fun_of_spec, used_arcs_spec. reflexivity.
Qed.

(** X6: the model has [days·n·(n-1)] arc variables and [2·days·n] visit and
    order variables, and [days·n·(n-1) + 4·days·n + n + 2·days]
    constraints. *)
Theorem X6_model_size (rq : Request) (m : Model) :
  build_model rq = Return m →
  let n := length (names_of rq) in
  length (variables m) = days rq * (n * (n - 1)) + 2 * (days rq * n)
  ∧ length (constraints m)
    = days rq * (n * (n - 1)) + 4 * (days rq * n) + n + 2 * days rq.
Proof.
  intros Hb n. apply build_model_inv in Hb as (_ & -> & ->). split.
  - unfold declare_variables.
    rewrite !length_app, !length_fmap, length_x_keys, length_y_keys. lia.
  - unfold model_constraints.
    rewrite !length_app, !length_fmap, length_seq.
    unfold flow_constraints, once_constraints, budget_constraints,
      mtz_constraints, order_constraints.
    rewrite length_fmap, length_x_keys.
    rewrite (length_bind_const _ (seq 0 (days rq)) (n * 2))
      by (intros d _; rewrite (length_bind_const _ _ 2);
          [by rewrite length_seq|done]).
    rewrite (length_bind_const _ (seq 0 n) 1) by done.
    rewrite (length_bind_const _ (seq 0 (days rq)) 1) by done.
    rewrite (length_bind_const _ (seq 0 (days rq)) (n * 2))
      by (intros d _; rewrite (length_bind_const _ _ 2);
          [by rewrite length_seq|done]).
    rewrite !length_seq. fold n. lia.
Qed.

(** X7: every variable in a constraint or in the objective of the model is
    one of the variables that were declared. *)
Theorem X7_only_declared_variables (rq : Request) (m : Model) :
  build_model rq = Return m →
  (∀ c v, c ∈ constraints m → v ∈ constraint_vars c → v ∈ (variables m).*1)
  ∧ (∀ v q, (v, q) ∈ objective m → v ∈ (variables m).*1).
Proof.
  intros Hb. pose proof (build_model_objective rq m Hb) as Ho.
  apply build_model_inv in Hb as (_ & Hv & Hc). rewrite Hv, Hc, Ho. split.
  - intros c v Hin Hvar. apply declared_in_range.
    by eapply model_constraints_vars.
  - intros v q Hin. apply declared_in_range.
    by eapply model_objective_vars.
Qed.

(** X8: with an engine, [solve_mtsp] raises only [OverflowError] and
    [IndexError]: the first exactly when the time limit in milliseconds
    does not fit a signed 64-bit integer, the second exactly when it fits,
    there is at least one day, there are at least two attractions and the
    distance matrix has fewer rows or fewer columns than there are
    attractions. *)
Theorem X8_raised_exceptions (solver : Engine) (rq : Request) :
  (solve_mtsp (Some solver) rq = Raise OverflowError
   ↔ ¬ fits_int64 (py_int (time_limit_seconds rq * 1000)))
  ∧ (solve_mtsp (Some solver) rq = Raise IndexError
     ↔ fits_int64 (py_int (time_limit_seconds rq * 1000))
       ∧ 1 ≤ days rq ∧ 2 ≤ length (names_of rq)
       ∧ (shape_rows (distances rq) < length (names_of rq)
          ∨ shape_cols (distances rq) < length (names_of rq)))
  ∧ ∀ e, solve_mtsp (Some solver) rq = Raise e
         → e = OverflowError ∨ e = IndexError.
Proof.
  assert (Hret : ∀ m, build_model rq = Return m →
                 ∃ r, solve_mtsp (Some solver) rq = Return r).
  { intros m Hb. destruct (solver m) as [status σ] eqn:Hs.
    destruct (status_ok status) eqn:Hst.
    - eexists. by eapply solve_mtsp_ok.
    - eexists. by eapply solve_mtsp_not_ok. }
  assert (Hraise : ∀ e, solve_mtsp (Some solver) rq = Raise e →
                   build_model rq = Raise e).
  { intros e He. destruct (build_model rq) as [m|e'] eqn:Hb.
    - destruct (Hret m eq_refl) as [r Hr]. congruence.
    - rewrite (solve_mtsp_build_raises solver rq e' Hb) in He. congruence. }
  split_and!.
  - split.
    + intros He%Hraise.
      by destruct (build_model_Raise rq _ He) as [[? _]|[_ ?]].
    + intros Hn. destruct (build_model rq) as [m|e] eqn:Hb.
      * by apply build_model_fits in Hb.
      * rewrite (solve_mtsp_build_raises solver rq e Hb).
        by destruct (build_model_Raise rq _ Hb) as [[_ ->]|[? _]].
  - split.
    + intros He%Hraise.
      destruct (build_model_Raise rq _ He) as [[_ ?]|[Hfits _]]; [done|].
      split; [done|].
      destruct (decide (days rq = 0)) as [Hz|Hz].
      { destruct (build_model_Return rq Hfits (or_introl Hz)) as (m & Hb & _).
        congruence. }
      destruct (decide (length (names_of rq) < 2
                        ∨ (length (names_of rq) ≤ shape_rows (distances rq)
                           ∧ length (names_of rq) ≤ shape_cols (distances rq))))
        as [Hc|Hc]; [|lia].
      apply covers_iff in Hc.
      destruct (build_model_Return rq Hfits (or_intror Hc)) as (m & Hb & _).
      congruence.
    + intros (Hfits & Hd & Hn & Hdim).
      destruct (build_model rq) as [m|e] eqn:Hb.
      * apply build_model_inv in Hb as ([Hz|Hc] & _); [lia|].
        apply covers_iff in Hc. lia.
      * rewrite (solve_mtsp_build_raises solver rq e Hb).
        by destruct (build_model_Raise rq _ Hb) as [[? _]|[_ ->]].
  - intros e He%Hraise.
    destruct (build_model_Raise rq _ He) as [[_ ->]|[_ ->]]; [by left|by right].
Qed.

(** X9: for a table without attractions, and a time limit whose
    milliseconds fit a signed 64-bit integer, [solve_mtsp] returns [days]
    empty lists and zero totals whatever the engine answers. *)
Theorem X9_empty_table (solver : Engine) (rq : Request) :
  fits_int64 (py_int (time_limit_seconds rq * 1000)) →
  rows (attractions rq) = [] →
  ∃ total_cost total_fun total_dist,
    solve_mtsp (Some solver) rq
      = Return (replicate (days rq) [], total_cost, total_fun, total_dist)
    ∧ (total_cost == 0)%Q ∧ (total_fun == 0)%Q ∧ (total_dist == 0)%Q.
Proof.
  intros Hfits Hrows.
  assert (length (names_of rq) = 0) as Hn by (unfold names_of; by rewrite Hrows).
  destruct (build_model_Return rq Hfits) as (m & Hb & _).
  { right. intros i j Hi. lia. }
  destruct (solver m) as [status σ] eqn:Hs.
  destruct (status_ok status) eqn:Hst.
  - pose proof (solve_mtsp_ok solver rq m status σ Hb Hs Hst) as Hsolve.
    cbv zeta in Hsolve. rewrite Hsolve, Hn. do 3 eexists. split.
    + f_equal. f_equal. f_equal. f_equal.
      rewrite <-(fmap_const_seq [] (days rq)). apply list_fmap_ext.
      intros k d _. reflexivity.
    + unfold total_entry_cost_of, total_fun_of, used_arcs. simpl.
      rewrite !bind_nil_const. rewrite fmap_nil, py_sum_nil.
      split_and!; [ring|reflexivity..].
  - rewrite (solve_mtsp_not_ok solver rq m status σ Hb Hs Hst).
    do 3 eexists. split; [done|]. split_and!; reflexivity.
Qed.

(** X10: the list decoded for a day starts with the assigned attraction of
    lowest index, wherever the used arcs begin. *)
Theorem X10_day_starts_at_lowest_index (names : list string) (n : nat)
    (σ : Assignment) (d : nat) :
  head (decode_day (λ cur, names !!! cur) n σ d)
    = (λ i, names !!! i) <$> head (assigned_of σ n d)
  ∧ ∀ s, head (assigned_of σ n d) = Some s →
      visit σ s d ∧ ∀ i, i < n → visit σ i d → s ≤ i.
Proof.
  split; [apply decode_day_head|].
  intros s Hs. apply head_filter_seq in Hs as [Hv Hmin]. split; [done|].
  intros i Hi Hvi. destruct (decide (s ≤ i)) as [|Hlt]; [done|].
  exfalso. apply (Hmin i); [lia..|done].
Qed.

(** X11: when fees, fun scores, category weights, distances and the travel
    cost per km are not negative, the returned totals are not negative. *)
Theorem X11_totals_nonneg (solver : Engine) (rq : Request) (m : Model)
    (status : Status) (σ : Assignment) :
  build_model rq = Return m →
  solver m = (status, σ) →
  (∀ a, a ∈ rows (attractions rq) →
     (0 <= entry_fee a)%Q ∧ (0 <= fun_score a)%Q) →
  (∀ w k q, weights rq = Some w → w !! k = Some q → (0 <= q)%Q) →
  (∀ i j, (0 <= cell (distances rq) i j)%Q) →
  (0 <= travel_cost_per_km rq)%Q →
  ∃ itinerary total_cost total_fun total_dist,
    solve_mtsp (Some solver) rq
      = Return (itinerary, total_cost, total_fun, total_dist)
    ∧ (0 <= total_cost)%Q ∧ (0 <= total_fun)%Q ∧ (0 <= total_dist)%Q.
Proof.
  intros Hb Hs Hrows Hw Hdist Hrate.
  destruct (status_ok status) eqn:Hst.
  2:{ rewrite (solve_mtsp_not_ok solver rq m status σ Hb Hs Hst).
      do 4 eexists. split; [done|]. split_and!; apply Qle_refl. }
  pose proof (solve_mtsp_ok solver rq m status σ Hb Hs Hst) as Hsolve.
  simpl in Hsolve. do 4 eexists. split; [exact Hsolve|].
  assert (Hfee : ∀ i, i < length (names_of rq) → (0 <= fee_of rq !!! i)%Q).
  { intros i Hi. apply lookup_total_Forall.
    - apply Forall_fmap, Forall_forall. intros a Ha. by apply Hrows.
    - unfold fee_of, names_of in *. by rewrite !length_fmap in *. }
  assert (Hfun : ∀ i, i < length (names_of rq) → (0 <= fun_of rq !!! i)%Q).
  { intros i Hi. apply lookup_total_Forall.
    - apply fun_of_nonneg; [intros a Ha; by apply Hrows|done].
    - unfold fun_of, names_of in *.
      destruct (weights rq); [destruct (has_category _)|];
        by rewrite !length_fmap in *. }
  assert (0 <= spec_total_distance σ (length (names_of rq)) (days rq)
                 (cell (distances rq)))%Q as Hd.
  { apply big_sum_nonneg. intros d _. apply big_sum_nonneg. intros i _.
    apply big_sum_nonneg. intros j _.
    destruct (_ && _); [apply Hdist|apply Qle_refl]. }
  assert (0 <= spec_total_entry_cost σ (length (names_of rq)) (days rq)
                 (λ i, fee_of rq !!! i))%Q as He.
  { apply big_sum_nonneg. intros d _. apply big_sum_nonneg. intros i Hi.
    destruct (visit σ i d); [by apply Hfee|apply Qle_refl]. }
  rewrite total_entry_cost_of_spec, total_fun_of_spec, used_arcs_spec.
  split_and!.
  - pose proof (Qmult_le_0_compat _ _ Hd Hrate). lra.
  - apply big_sum_nonneg. intros d _. apply big_sum_nonneg. intros i Hi.
    destruct (visit σ i d); [by apply Hfun|apply Qle_refl].
  - done.
Qed.

(** X12: the route map of the script can be drawn for every itinerary
    [solve_mtsp] returned for the script's table: each lookup by name finds
    a row.  The map gets one marker per listed name and one line per pair
    of neighbours in a day's list, and it is fitted to one point per listed
    name when there is any. *)
Theorem X12_route_map_drawn (CreateSolver : option Engine)
    (places : list App.Place) (distances : Matrix) (days : nat)
    (budget_day time_day : Q) (weights : gmap string Q)
    (itinerary : list (list string)) (total_cost total_fun total_dist : Q) :
  App.run_optimizer CreateSolver places distances days budget_day time_day weights
    = Return (itinerary, total_cost, total_fun, total_dist) →
  ∃ shapes bounds,
    App.route_map places itinerary = Return (shapes, bounds)
    ∧ App.markers shapes = length (concat itinerary)
    ∧ App.polylines shapes = App.steps itinerary
    ∧ match bounds with
      | None => concat itinerary = []
      | Some pts => length pts = length (concat itinerary) ∧ pts ≠ []
      end.
Proof.
  intros Hrun.
  destruct (draw_days_known places itinerary ([], []) 0)
    as (st & Hdraw & Hlen & Hm & Hp).
  { intros route nm Hroute Hnm.
    by apply (solve_mtsp_names _ _ _ _ _ _ _ _ Hrun Hroute Hnm). }
  unfold App.route_map. rewrite Hdraw. simpl in *.
  do 2 eexists. split; [done|]. split_and!; [done..|].
  destruct st.1 as [|pt pts]; simpl in *.
  - destruct (concat itinerary); [done|simpl in Hlen; lia].
  - done.
Qed.

(** * The further properties on the worked request *)

Lemma X1_witness :
  ∃ itinerary total_cost total_fun total_dist,
    solve_mtsp (Some Demo.engine_two_chains) Demo.rq
      = Return (itinerary, total_cost, total_fun, total_dist)
    ∧ ∀ d, d < 2 →
        itinerary !! d
          = Some ((λ i, names_of Demo.rq !!! i)
                    <$> day_indices 4 Demo.σ_two_chains d)
        ∧ (py_sum ((λ i, visit_time_of Demo.rq !!! i)
                     <$> day_indices 4 Demo.σ_two_chains d)
           + day_arc_sum Demo.σ_two_chains 4 d (cell (travel_time_of Demo.rq))
           <= 8)%Q.
Proof.
  apply (X1_daily_time Demo.engine_two_chains Demo.rq Demo.model OPTIMAL
           Demo.σ_two_chains).
  - vm_compute. reflexivity.
  - reflexivity.
  - left. reflexivity.
  - exact demo_feasible.
Defined.

Lemma X2_witness :
  (∀ i j, i < 4 → j < 4 → i ≠ j → arc Demo.σ_two_chains i j 0 →
     (Demo.σ_two_chains (U i 0) + 1 <= Demo.σ_two_chains (U j 0))%Q)
  ∧ ∀ p, arc_path Demo.σ_two_chains 4 0 p → NoDup p.
Proof.
  apply (X2_no_closed_loop Demo.rq Demo.model Demo.σ_two_chains 0).
  - vm_compute. reflexivity.
  - exact demo_feasible.
  - vm_compute. lia.
Defined.

Lemma X3_witness :
  (∀ i d, i < 4 → d < 2 → visit Demo.σ_two_chains i d →
     ∃ j, j < 4 ∧ j ≠ i ∧ visit Demo.σ_two_chains j d
          ∧ (arc Demo.σ_two_chains i j d ∨ arc Demo.σ_two_chains j i d))
  ∧ ∃ itinerary total_cost total_fun total_dist,
      solve_mtsp (Some Demo.engine_two_chains) Demo.rq
        = Return (itinerary, total_cost, total_fun, total_dist)
      ∧ ∀ d route, itinerary !! d = Some route → length route ≠ 1.
Proof.
  apply (X3_never_alone Demo.engine_two_chains Demo.rq Demo.model OPTIMAL
           Demo.σ_two_chains).
  - vm_compute. reflexivity.
  - reflexivity.
  - left. reflexivity.
  - exact demo_feasible.
Defined.

Lemma X4_witness :
  ∃ itinerary total_cost total_fun total_dist,
    solve_mtsp (Some Demo.engine_two_chains) Demo.rq
      = Return (itinerary, total_cost, total_fun, total_dist)
    ∧ NoDup (concat itinerary)
    ∧ length (concat itinerary) ≤ 4.
Proof.
  apply (X4_no_name_twice Demo.engine_two_chains Demo.rq Demo.model OPTIMAL
           Demo.σ_two_chains).
  - vm_compute. reflexivity.
  - reflexivity.
  - left. reflexivity.
  - exact demo_feasible.
  - exact demo_names_NoDup.
Defined.

Lemma X5_witness :
  ∃ itinerary total_cost total_fun total_dist,
    solve_mtsp (Some Demo.engine_two_chains) Demo.rq
      = Return (itinerary, total_cost, total_fun, total_dist)
    ∧ (objective_value Demo.σ_two_chains (objective Demo.model)
       == total_fun - (1 # 100) * total_dist)%Q.
Proof.
  apply (X5_objective_value Demo.engine_two_chains Demo.rq Demo.model OPTIMAL
           Demo.σ_two_chains).
  - vm_compute. reflexivity.
  - reflexivity.
  - left. reflexivity.
  - exact demo_feasible.
Defined.

Lemma X6_witness :
  length (variables Demo.model) = 2 * (4 * (4 - 1)) + 2 * (2 * 4)
  ∧ length (constraints Demo.model)
    = 2 * (4 * (4 - 1)) + 4 * (2 * 4) + 4 + 2 * 2.
Proof.
  apply (X6_model_size Demo.rq Demo.model).
  vm_compute. reflexivity.
Defined.

Lemma X7_witness :
  (∀ c v, c ∈ constraints Demo.model → v ∈ constraint_vars c →
     v ∈ (variables Demo.model).*1)
  ∧ (∀ v q, (v, q) ∈ objective Demo.model → v ∈ (variables Demo.model).*1).
Proof.
  apply (X7_only_declared_variables Demo.rq Demo.model).
  vm_compute. reflexivity.
Defined.

Lemma X8_witness :
  solve_mtsp (Some Demo.engine_two_chains) Demo.rq_long_limit
    = Raise OverflowError.
Proof.
  apply (X8_raised_exceptions Demo.engine_two_chains Demo.rq_long_limit).
  vm_compute. intros [_ Hlt]. discriminate Hlt.
Defined.

Lemma X9_witness :
  ∃ total_cost total_fun total_dist,
    solve_mtsp (Some Demo.engine_two_chains) AppDemo.rq_empty
      = Return (replicate 3 [], total_cost, total_fun, total_dist)
    ∧ (total_cost == 0)%Q ∧ (total_fun == 0)%Q ∧ (total_dist == 0)%Q.
Proof.
  apply (X9_empty_table Demo.engine_two_chains AppDemo.rq_empty).
  - vm_compute. split; [discriminate|reflexivity].
  - reflexivity.
Defined.

Lemma X11_witness :
  ∃ itinerary total_cost total_fun total_dist,
    solve_mtsp (Some Demo.engine_two_chains) Demo.rq
      = Return (itinerary, total_cost, total_fun, total_dist)
    ∧ (0 <= total_cost)%Q ∧ (0 <= total_fun)%Q ∧ (0 <= total_dist)%Q.
Proof.
  apply (X11_totals_nonneg Demo.engine_two_chains Demo.rq Demo.model OPTIMAL
           Demo.σ_two_chains).
  - vm_compute. reflexivity.
  - reflexivity.
  - intros a Ha. simpl in Ha. unfold Demo.rows4 in Ha.
    repeat (apply elem_of_cons in Ha as [->|Ha]; [split; discriminate|]).
    by apply elem_of_nil in Ha.
  - intros w k q [= <-] Hq.
    apply lookup_singleton_Some in Hq as [_ <-]. discriminate.
  - intros i j. simpl. unfold Qnat, Qle. simpl. lia.
  - discriminate.
Defined.

Lemma X12_witness :
  ∃ shapes bounds,
    App.route_map AppDemo.places [["A"; "B"; "C"; "D"]; []]
      = Return (shapes, bounds)
    ∧ App.markers shapes = 4
    ∧ App.polylines shapes = 3
    ∧ match bounds with
      | None => concat [["A"; "B"; "C"; "D"]; []] = []
      | Some pts => length pts = 4 ∧ pts ≠ []
      end.
Proof.
  eapply (X12_route_map_drawn (Some Demo.engine_two_chains) AppDemo.places
            Demo.dist4 2 100 8 AppDemo.theme_weights
            [["A"; "B"; "C"; "D"]; []]).
  vm_compute. reflexivity.
Defined.
